(** * Polymatic: the polymerization loop controller (polym_loop.py)

    A shallow embedding of [polym_loop.py] and the properties of its
    retry / staging state machine.

    The controller is a sequential script that mutates one module-level
    counter ([bonds]), the process's working directory, and the file
    system, and that calls external programs (the Polymatic perl scripts
    and LAMMPS).  It is embedded in a state-and-error monad over an
    explicit [state]; the external programs are an oracle [env] that
    decides the exit status of every call and whether the designated
    output file gets written. *)

From Stdlib Require Import ZArith Ascii DecimalString.
From stdpp Require Import gmap strings list fin_maps.

Open Scope Z_scope.

(** ** Paths and the file system *)

(** An absolute directory or file position: its components, innermost
    first, so that [n :: d] is the entry [n] of directory [d] and [tl d]
    is the parent of [d] (the parent of the root is the root). *)
Abbreviation path := (list string).

(** A path as the script writes it, relative to the working directory:
    components in reading order, [".."] for the parent.  ['../temp.lmps']
    is [[".."; "temp.lmps"]]. *)
Abbreviation rel := (list string).

Definition resolve (d : path) (r : rel) : path :=
  foldl (λ acc c, if String.eqb c ".." then tl acc else c :: acc) d r.

Inductive node :=
  | File (content : string)
  | Dir.

(** ** User setup: the module-level parameters *)

(** [script_init] and [script_final] may be set to the integer [0]
    instead of a file name (the script tests [script_init != 0]); that
    value is [None] here. *)
Record params := {
  bonds_tot : Z;
  bonds_cyc : Z;
  md_cyc : Z;
  md_max : Z;
  keep : Z;
  input_polym : string;
  input_min : string;
  input_md0 : string;
  input_md1 : string;
  input_md2 : string;
  script_step : string;
  script_init : option string;
  script_final : option string;
  lmps : string
}.

(** The values written in the file. *)
Definition user_setup : params := {|
  bonds_tot := 16;
  bonds_cyc := 5;
  md_cyc := 3;
  md_max := 100;
  keep := 0;
  input_polym := "polym.in";
  input_min := "min.in";
  input_md0 := "md0.in";
  input_md1 := "md1.in";
  input_md2 := "md2.in";
  script_step := "polym.pl";
  script_init := Some "polym_init.pl";
  script_final := Some "polym_final.pl";
  lmps := "mpirun -np 8 /usr/local/bin/lmp_mpi"
|}.

(** ** Events, state and outcomes *)

(** The call sites of [subprocess.call]. *)
Inductive tool :=
  | ToolInit
  | ToolStep
  | ToolFinal
  | ToolEm
  | ToolMd (num : Z).

Inductive event :=
  | EvPrint (msg : string)
  | EvSummary (made total : Z)
  | EvSetBonds (v : Z)
  | EvMkdir (p : path)
  | EvChdir (arg : rel)
  | EvCopy (src dst : path)
  | EvOpen (p : path)
  | EvCall (t : tool) (cmd : string)
  | EvRmtree (p : path)
  | EvRemove (p : path).

(** One line of the run's log: the operation, with the value of [bonds]
    and the working directory at the moment it starts. *)
Record entry := {
  e_bonds : Z;
  e_cwd : path;
  e_ev : event
}.

Record state := {
  bonds : Z;
  cwd : path;
  fs : gmap (list string) node;
  trace : list entry
}.

Inductive exn :=
  | UnboundLocalError
  | FileNotFoundError
  | IsADirectoryError
  | NotADirectoryError
  | ZeroDivisionError
  | OverflowError.

(** How a piece of the script stops short: it calls [sys.exit], or dies
    of an uncaught exception.  [OutOfFuel] is the embedding's own: a loop
    was cut before it ended (the properties below show that the loops of
    the script never are). *)
Inductive failure :=
  | SysExit (code : Z)
  | Raise (e : exn)
  | OutOfFuel.

Inductive result (A : Type) :=
  | Ok (a : A)
  | Fail (f : failure).
Arguments Ok {A} a.
Arguments Fail {A} f.

(** The status the operating system sees when the script ends with [r]. *)
Definition exit_status {A} (r : result A) : option Z :=
  match r with
  | Ok _ => Some 0
  | Fail (SysExit c) => Some c
  | Fail (Raise _) => Some 1
  | Fail OutOfFuel => None
  end.

Definition M (A : Type) : Type := state → result A * state.

Definition ret {A} (a : A) : M A := λ s, (Ok a, s).

Definition bind {A B} (m : M A) (f : A → M B) : M B := λ s,
  match m s with
  | (Ok a, s') => f a s'
  | (Fail x, s') => (Fail x, s')
  end.

Notation "'do' x <- m ; k" := (bind m (λ x, k))
  (at level 10, x name, m at level 100, k at level 200).
Notation "m ;; k" := (bind m (λ _, k))
  (at level 100, k at level 200, right associativity).

Definition raise {A} (e : exn) : M A := λ s, (Fail (Raise e), s).
Definition out_of_fuel {A} : M A := λ s, (Fail OutOfFuel, s).
Definition gets {A} (f : state → A) : M A := λ s, (Ok (f s), s).

Definition set_bonds_st (v : Z) (s : state) : state :=
  {| bonds := v; cwd := cwd s; fs := fs s; trace := trace s |}.
Definition set_cwd_st (d : path) (s : state) : state :=
  {| bonds := bonds s; cwd := d; fs := fs s; trace := trace s |}.
Definition set_fs_st (m : gmap (list string) node) (s : state) : state :=
  {| bonds := bonds s; cwd := cwd s; fs := m; trace := trace s |}.
Definition log_st (e : event) (s : state) : state :=
  {| bonds := bonds s; cwd := cwd s; fs := fs s;
     trace := trace s ++ [{| e_bonds := bonds s; e_cwd := cwd s; e_ev := e |}] |}.

(** ** Number formatting *)

(** ["%d" % n] *)
Definition fmt_d (n : Z) : string := NilZero.string_of_int (Z.to_int n).

Definition zfill (w : nat) (s : string) : string :=
  String.append (String.string_of_list_ascii (repeat "0"%char (w - String.length s))) s.

(** ['{0:03d}'.format(n)]: at least three characters, the sign counted,
    zeros between the sign and the digits. *)
Definition fmt_03d (n : Z) : string :=
  if n <? 0 then String.append "-" (zfill 2 (fmt_d (- n))) else zfill 3 (fmt_d n).

Definition cat (l : list string) : string := foldr String.append "" l.

(** [float(n)], as in [n * 100.0]: an integer is converted to the
    nearest floating-point number, and the conversion raises
    [OverflowError] when that would be 2^1024 or more, which is so from
    2^1024 - 2^970 on, half-way between the largest such number and
    2^1024. *)
Definition float_limit : Z := 2 ^ 1024 - 2 ^ 970.

Definition float_ok (n : Z) : bool := Z.abs n <? float_limit.

(** ** Primitive operations *)

Definition emit (e : event) : M unit := λ s, (Ok tt, log_st e s).

(** [print(msg)] *)
Definition print (msg : string) : M unit := emit (EvPrint msg).

(** [bonds += 1] and [bonds -= 1] *)
Definition set_bonds (v : Z) : M unit := λ s,
  (Ok tt, set_bonds_st v (log_st (EvSetBonds v) s)).

(** [os.path.exists(r)] and [os.path.isfile(r)] *)
Definition path_exists (r : rel) : M bool := λ s,
  (Ok (bool_decide (is_Some (fs s !! resolve (cwd s) r))), s).

Definition is_file (o : option node) : bool :=
  match o with Some (File _) => true | _ => false end.

Definition isfile (r : rel) : M bool := λ s,
  (Ok (is_file (fs s !! resolve (cwd s) r)), s).

(** [os.makedirs(r)], called only after [os.path.exists(r)] was false. *)
Definition makedirs (r : rel) : M unit := λ s,
  let p := resolve (cwd s) r in
  (Ok tt, set_fs_st (<[p := Dir]> (fs s)) (log_st (EvMkdir p) s)).

(** [os.chdir(r)].  At every call site the target is the directory just
    made or the parent, so the call is taken to succeed. *)
Definition chdir (r : rel) : M unit := λ s,
  (Ok tt, set_cwd_st (resolve (cwd s) r) (log_st (EvChdir r) s)).

(** [shutil.copy(src, dst)]: the source must be a file; a destination
    that is a directory receives the file under the source's name. *)
Definition copy (src dst : rel) : M unit := λ s,
  let ps := resolve (cwd s) src in
  let pd := resolve (cwd s) dst in
  match fs s !! ps with
  | Some (File c) =>
      let target := match fs s !! pd with
                    | Some Dir => hd "" ps :: pd
                    | _ => pd
                    end in
      match fs s !! target with
      | Some Dir => (Fail (Raise IsADirectoryError), s)
      | _ => (Ok tt, set_fs_st (<[target := File c]> (fs s)) (log_st (EvCopy ps target) s))
      end
  | Some Dir => (Fail (Raise IsADirectoryError), s)
  | None => (Fail (Raise FileNotFoundError), s)
  end.

(** [os.remove(r)] *)
Definition remove (r : rel) : M unit := λ s,
  let p := resolve (cwd s) r in
  match fs s !! p with
  | Some (File _) => (Ok tt, set_fs_st (delete p (fs s)) (log_st (EvRemove p) s))
  | Some Dir => (Fail (Raise IsADirectoryError), s)
  | None => (Fail (Raise FileNotFoundError), s)
  end.

(** [open(r, 'w')]: the file is created or emptied. *)
Definition open_w (r : rel) : M unit := λ s,
  let p := resolve (cwd s) r in
  match fs s !! p with
  | Some Dir => (Fail (Raise IsADirectoryError), s)
  | _ => (Ok tt, set_fs_st (<[p := File ""]> (fs s)) (log_st (EvOpen p) s))
  end.

(** [glob.glob(pre + '*')]: the entries of the working directory whose
    name starts with [pre]. *)
Definition glob_match (pre : string) (d : path) (p : path) : option string :=
  match p with
  | n :: d' => if bool_decide (d' = d) && String.prefix pre n then Some n else None
  | [] => None
  end.

Definition glob (pre : string) : M (list string) := λ s,
  (Ok (omap (λ kv, glob_match pre (cwd s) kv.1) (map_to_list (fs s))), s).

(** [shutil.rmtree(n)]: the directory and everything below it. *)
Definition rmtree (n : string) : M unit := λ s,
  let p := n :: cwd s in
  match fs s !! p with
  | Some Dir =>
      (Ok tt, set_fs_st (filter (λ kv, ¬ p `suffix_of` kv.1) (fs s)) (log_st (EvRmtree p) s))
  | Some (File _) => (Fail (Raise NotADirectoryError), s)
  | None => (Fail (Raise FileNotFoundError), s)
  end.

(** [for x in l: body(x)] *)
Fixpoint for_each {A} (l : list A) (body : A → M unit) : M unit :=
  match l with
  | [] => ret tt
  | x :: l' => body x ;; for_each l' body
  end.

(** ** External programs *)

(** What an external program does is not the controller's business: for
    every call the oracle gives the exit status and, when the program
    writes its designated output file, the contents.  It sees the call
    site, the command line and the whole state, log included, so its
    answers may depend on everything that happened before.  A program
    cannot put a file where a directory is. *)
Definition oracle := tool → string → state → Z * option string.

Definition write_out (p : path) (c : string) (m : gmap (list string) node)
  : gmap (list string) node :=
  match m !! p with
  | Some Dir => m
  | _ => <[p := File c]> m
  end.

(** The line feed that the script writes as a backslash followed by n. *)
Definition nl : string := String (ascii_of_nat 10) "".

(** ** The script *)

(** File names set by the user are taken to be single path components
    without blanks, as the script itself assumes when it pastes them into
    paths and splits command lines at blanks. *)

Section Controller.

Context (p : params) (env : oracle).

(** [subprocess.call(cmd.split())] at call site [t]; [out] is the file
    the program is asked to produce.  The program is taken to be there
    and to start: what is modelled is its exit status and its output. *)
Definition call (t : tool) (cmd : string) (out : rel) : M Z := λ s,
  let '(code, w) := env t cmd s in
  let s1 := log_st (EvCall t cmd) s in
  (Ok code,
   match w with
   | Some c => set_fs_st (write_out (resolve (cwd s) out) c (fs s)) s1
   | None => s1
   end).

Definition sys_exit {A} (code : Z) : M A := λ s, (Fail (SysExit code), s).

Definition err_exit {A} (error : string) : M A :=
  print (String.append "Error: " error) ;;
  sys_exit 1.

(** [x % y] on integers *)
Definition py_mod (x y : Z) : M Z :=
  if y =? 0 then raise ZeroDivisionError else ret (x mod y).

(** [for path in glob.glob(pre + '*'): shutil.rmtree(path)] *)
Definition rm_glob (pre : string) : M unit :=
  do paths <- glob pre;
  for_each paths rmtree.

Definition setup_step : M unit :=
  do b <- gets bonds;
  print (cat ["Step "; fmt_d b; ":"]) ;;
  let directory := String.append "step_" (fmt_03d b) in
  do found <- path_exists [directory];
  (if negb found then makedirs [directory]
   else err_exit (cat ["Directory '"; directory; "' already exists."])) ;;
  chdir [directory] ;;
  if b =? 0 then copy [".."; "temp.lmps"] ["data.lmps"]
  else copy [".."; "temp.lmps"] ["init.lmps"].

Definition setup_md (num : Z) : M unit :=
  do b <- gets bonds;
  let directory :=
    if num =? 0 then cat ["step_"; fmt_03d b; "_md"]
    else String.append "md_" (fmt_03d num) in
  do found <- path_exists [directory];
  (if negb found then makedirs [directory]
   else err_exit (cat ["Directory '"; directory; "' already exists."])) ;;
  chdir [directory] ;;
  if num =? 0 then copy [".."; "temp.lmps"] ["data.lmps"]
  else copy [".."; "init.lmps"] ["data.lmps"].

Definition em : M unit :=
  copy [".."; "scripts"; input_min p] [input_min p] ;;
  let cmd := cat [lmps p; " -i "; input_min p] in
  open_w ["out"] ;;
  do code <- call ToolEm cmd ["min.lmps"];
  do made <- isfile ["min.lmps"];
  (if negb made then err_exit "LAMMPS energy minimization did not complete properly."
   else ret tt) ;;
  copy ["min.lmps"] [".."; "temp.lmps"] ;;
  chdir [".."] ;;
  if keep p =? 0 then rm_glob "step_" else ret tt.

(** [inp] is assigned in the three branches of the first test only: for
    any other [num] the local is unbound when the command is built. *)
Definition md (num : Z) : M unit :=
  do inp <-
    (if num =? 0 then
       copy [".."; ".."; "scripts"; input_md0 p] [input_md0 p] ;; ret (Some (input_md0 p))
     else if num =? 1 then
       copy [".."; "scripts"; input_md1 p] [input_md1 p] ;; ret (Some (input_md1 p))
     else if num =? 2 then
       copy [".."; "scripts"; input_md2 p] [input_md2 p] ;; ret (Some (input_md2 p))
     else ret None);
  match inp with
  | None => raise UnboundLocalError
  | Some inp =>
      let cmd := cat [lmps p; " -i "; inp] in
      open_w ["out"] ;;
      do code <- call (ToolMd num) cmd ["md.lmps"];
      do made <- isfile ["md.lmps"];
      (if negb made then err_exit "LAMMPS molecular dynamics did not complete properly."
       else ret tt) ;;
      (if num =? 0 then copy ["md.lmps"] [".."; "init.lmps"]
       else copy ["md.lmps"] [".."; "temp.lmps"]) ;;
      chdir [".."] ;;
      if keep p =? 0 then
        if num =? 0 then rm_glob "md_" else rm_glob "step_"
      else ret tt
  end.

Definition step_cmd : string :=
  cat ["perl ../scripts/"; script_step p;
       " -i init.lmps -t ../types.txt -s ../scripts/"; input_polym p;
       " -o data.lmps"].

(** The [while (1)] of [polym_step]; [attempts] is its local counter. *)
Fixpoint polym_step_while (fuel : nat) (attempts : Z) : M Z :=
  match fuel with
  | O => out_of_fuel
  | S fuel' =>
      do code <- call ToolStep step_cmd ["data.lmps"];
      if code =? 0 then
        print (String.append "  Attempts: " (fmt_d attempts)) ;;
        do made <- isfile ["data.lmps"];
        (if negb made then err_exit "Polymerization step script did not complete properly."
         else ret tt) ;;
        ret 0
      else if code =? 3 then
        if attempts >? md_max p then
          print "  No pair was found within the maximum number of attempts." ;;
          do b <- gets bonds;
          set_bonds (b - 1) ;;
          chdir [".."] ;;
          (if keep p =? 0 then rm_glob "step_" else ret tt) ;;
          ret 1
        else
          setup_md attempts ;;
          md 0 ;;
          polym_step_while fuel' (attempts + 1)
      else err_exit "Polymerization step script did not complete properly."
  end.

(** The loop runs at most [md_max + 1] times (once when [md_max] is
    negative); see [polym_step_fuel]. *)
Definition polym_step : M Z :=
  polym_step_while (S (Z.to_nat (md_max p))) 1.

(** [code] is assigned only when a script is called: when [script_init]
    is [0] the local is unbound at the test that follows. *)
Definition polym_init : M unit :=
  print "Initialization:" ;;
  do code <-
    match script_init p with
    | Some script =>
        let cmd := cat ["perl scripts/"; script;
                        " -i data.lmps -t types.txt -s scripts/"; input_polym p;
                        " -o temp.lmps"] in
        do c <- call ToolInit cmd ["temp.lmps"];
        ret (Some c)
    | None => copy ["data.lmps"] ["temp.lmps"] ;; ret None
    end;
  match code with
  | None => raise UnboundLocalError
  | Some c =>
      do made <- isfile ["temp.lmps"];
      if negb (c =? 0) || negb made then
        err_exit "Polymerization initialization script did not complete properly."
      else ret tt
  end.

Definition polym_final : M unit :=
  print "Finalization:" ;;
  do code <-
    match script_final p with
    | Some script =>
        let cmd := cat ["perl scripts/"; script;
                        " -i temp.lmps -t types.txt -s scripts/"; input_polym p;
                        " -o final.lmps"] in
        do c <- call ToolFinal cmd ["final.lmps"];
        ret (Some c)
    | None => copy ["temp.lmps"] ["final.lmps"] ;; ret None
    end;
  match code with
  | None => raise UnboundLocalError
  | Some c =>
      do made <- isfile ["final.lmps"];
      (if negb (c =? 0) || negb made then
         err_exit "Polymerization finalization script did not complete properly."
       else ret tt) ;;
      remove ["temp.lmps"]
  end.

(** The molecular dynamics at the end of a cycle.  [bonds/bonds_cyc] is
    evaluated only when [bonds_cyc] divides [bonds], where the quotient
    is the same integer whichever division the interpreter takes [/]
    for, as long as the numbers are below 2^53 and so exact in floating
    point. *)
Definition cycle_md : M unit :=
  do b <- gets bonds;
  do r <- py_mod b (bonds_cyc p);
  if r =? 0 then
    setup_md 0 ;;
    do q <- py_mod (b / bonds_cyc p) (md_cyc p);
    if q =? 0 then md 2 else md 1
  else ret tt.

(** One turn of the [while (bonds < bonds_tot)] of [polym_loop]; the
    result tells whether the turn ends in one of the two [break]s. *)
Definition polym_loop_body : M bool :=
  do b <- gets bonds;
  set_bonds (b + 1) ;;
  setup_step ;;
  do code <- polym_step;
  if code =? 1 then ret true
  else
    em ;;
    do b' <- gets bonds;
    if b' =? bonds_tot p then ret true
    else cycle_md ;; ret false.

Fixpoint polym_loop_while (fuel : nat) : M unit :=
  do b <- gets bonds;
  if b <? bonds_tot p then
    match fuel with
    | O => out_of_fuel
    | S fuel' =>
        do stop <- polym_loop_body;
        if stop then ret tt else polym_loop_while fuel'
    end
  else ret tt.

(** Every turn of the loop that does not leave it raises [bonds] by one:
    [bonds_tot - bonds] turns are enough; see [polym_loop_fuel]. *)
Definition polym_loop : M unit :=
  polym_init ;;
  setup_step ;;
  em ;;
  do b <- gets bonds;
  polym_loop_while (Z.to_nat (bonds_tot p - b)) ;;
  polym_final.

Definition print_header : M unit :=
  do b <- gets bonds;
  print (String.append "Polymatic Simulated Polymerization" nl) ;;
  print (cat ["Parameters"; nl; "----------"]) ;;
  print (String.append "Initial bonds:             " (fmt_d b)) ;;
  print (String.append "Total bonds:               " (fmt_d (bonds_tot p))) ;;
  print (String.append "Bonds per cycle:           " (fmt_d (bonds_cyc p))) ;;
  print (String.append "Frequency of MD type 2:    " (fmt_d (md_cyc p))) ;;
  print (cat ["Maximum bond attempts:     "; fmt_d (md_max p); nl]) ;;
  print (cat ["Polymerization Loop"; nl; "-------------------"]).

(** The last line computes [bonds*100.0/bonds_tot] in floating point:
    [bonds] is converted for the product, then [bonds_tot] for the
    quotient, and the quotient is not defined when [bonds_tot] is zero.
    (A product beyond the range is infinite and raises nothing.)  The
    text of the line is a rounded percentage, kept here as the two
    numbers it is computed from. *)
Definition print_footer : M unit :=
  do b <- gets bonds;
  print (cat [nl; "Summary"; nl; "-------"]) ;;
  print (String.append "Bonds made:                " (fmt_d b)) ;;
  if negb (float_ok b) then raise OverflowError
  else if negb (float_ok (bonds_tot p)) then raise OverflowError
  else if bonds_tot p =? 0 then raise ZeroDivisionError
  else emit (EvSummary b (bonds_tot p)).

Definition main : M unit :=
  print_header ;;
  polym_loop ;;
  print_footer.

End Controller.

(** The state the interpreter starts in: [bonds = 0], the run directory
    [top] as working directory, whatever files there are. *)
Definition start (top : path) (files : gmap (list string) node) : state :=
  {| bonds := 0; cwd := top; fs := files; trace := [] |}.

(** * Reading the log *)

Definition is_call (t : tool) (e : entry) : bool :=
  match e_ev e with
  | EvCall t' _ =>
      match t, t' with
      | ToolInit, ToolInit | ToolStep, ToolStep | ToolFinal, ToolFinal
      | ToolEm, ToolEm => true
      | ToolMd n, ToolMd n' => n =? n'
      | _, _ => false
      end
  | _ => false
  end.

(** Entering a stage directory, and going back to the parent. *)
Definition is_enter (e : entry) : bool :=
  match e_ev e with
  | EvChdir [d] => negb (String.eqb d "..")
  | _ => false
  end.

Definition is_leave (e : entry) : bool :=
  match e_ev e with
  | EvChdir [d] => String.eqb d ".."
  | _ => false
  end.

Fixpoint count (f : entry → bool) (tr : list entry) : nat :=
  match tr with
  | [] => O
  | e :: tr' => ((if f e then 1 else 0) + count f tr')%nat
  end.

(** The values [bonds] was set to, in order. *)
Definition sets (tr : list entry) : list Z :=
  omap (λ e, match e_ev e with EvSetBonds v => Some v | _ => None end) tr.

(** The directories made, in order. *)
Definition mkdirs (tr : list entry) : list path :=
  omap (λ e, match e_ev e with EvMkdir d => Some d | _ => None end) tr.

(** The end-of-cycle molecular dynamics runs: the bond count at which
    LAMMPS was started and the type of the run, 1 or 2. *)
Definition cycle_runs (tr : list entry) : list (Z * Z) :=
  omap (λ e, match e_ev e with
             | EvCall (ToolMd n) _ => if n =? 0 then None else Some (e_bonds e, n)
             | _ => None
             end) tr.

(** * Reasoning about the monad *)

(** [wp m s Q E]: running [m] from [s] ends in a state that satisfies
    [Q] when it returns and [E] when it fails. *)
Definition wp {A} (m : M A) (s : state) (Q : A → state → Prop)
  (E : failure → state → Prop) : Prop :=
  match m s with
  | (Ok a, s') => Q a s'
  | (Fail x, s') => E x s'
  end.

(** Events that neither set [bonds] nor start a program outside [ts]. *)
Definition quiet (ts : tool → bool) (ev : event) : bool :=
  match ev with
  | EvSetBonds _ => false
  | EvCall t _ => ts t
  | _ => true
  end.

(** [frame ts s0 s]: from [s0] to [s] the counter [bonds] was left alone
    and only quiet events were logged. *)
Definition frame (ts : tool → bool) (s0 s : state) : Prop :=
  bonds s = bonds s0 ∧
  ∃ new, trace s = trace s0 ++ new ∧
         Forall (λ e, e_bonds e = bonds s0 ∧ quiet ts (e_ev e) = true) new.

(** A failure inside a frame; none of them is the embedding's own. *)
Definition frame_fail (ts : tool → bool) (s0 : state) (x : failure) (s : state) : Prop :=
  x ≠ OutOfFuel ∧ frame ts s0 s.

(** The calls of the topology tool so far. *)
Definition step_calls (s : state) : nat := count (is_call ToolStep) (trace s).

Definition no_tool : tool → bool := λ _, false.
Definition only (t : tool) : tool → bool := λ t',
  match t, t' with
  | ToolInit, ToolInit | ToolStep, ToolStep | ToolFinal, ToolFinal
  | ToolEm, ToolEm => true
  | ToolMd n, ToolMd n' => n =? n'
  | _, _ => false
  end.

(** [ext k s0 s]: the log of [s] continues that of [s0], with [k] more
    calls of the topology tool. *)
Definition ext (k : nat) (s0 s : state) : Prop :=
  trace s0 `prefix_of` trace s ∧ step_calls s = (step_calls s0 + k)%nat.

(** The topology tool may still be started [budget p a] times when the
    counter of [polym_step] stands at [a]. *)
Definition budget (p : params) (a : Z) : nat := S (Z.to_nat (md_max p + 1 - a)).

(** [rolled_back ts s s']: as [frame], but for one [bonds -= 1] on the
    way. *)
Definition rolled_back (ts : tool → bool) (s s' : state) : Prop :=
  ∃ s1, frame ts s s1 ∧
        frame ts (set_bonds_st (bonds s1 - 1) (log_st (EvSetBonds (bonds s1 - 1)) s1)) s'.

(** The programs that the main loop starts. *)
Definition loop_tools : tool → bool := λ t,
  match t with
  | ToolInit | ToolFinal => false
  | _ => true
  end.

(** The state after [bonds += 1]. *)
Definition incr_st (s : state) : state :=
  set_bonds_st (bonds s + 1) (log_st (EvSetBonds (bonds s + 1)) s).

(** ** The counter [bonds] *)

(** Between two turns of the main loop: the counter is in range, was in
    range whenever something was logged, and has gone up one by one. *)
Definition bonds_inv (p : params) (s : state) : Prop :=
  0 ≤ bonds s ≤ bonds_tot p ∧
  Forall (λ e, 0 ≤ e_bonds e ≤ bonds_tot p) (trace s) ∧
  sets (trace s) = seqZ 1 (bonds s).

(** At any later point: the same, but for one step down at the very
    end. *)
Definition bonds_post (p : params) (s : state) : Prop :=
  0 ≤ bonds s ≤ bonds_tot p ∧
  Forall (λ e, 0 ≤ e_bonds e ≤ bonds_tot p) (trace s) ∧
  (sets (trace s) = seqZ 1 (bonds s) ∨
   (bonds s < bonds_tot p ∧ sets (trace s) = seqZ 1 (bonds s + 1) ++ [bonds s])).

(** ** The cycle policy *)

(** The programs started while a bond is attempted and relaxed. *)
Definition attempt_tools : tool → bool := λ t,
  match t with
  | ToolStep | ToolEm => true
  | ToolMd n => n =? 0
  | _ => false
  end.

(** The end-of-cycle run that follows bond [n], if any: none after the
    last bond, type 2 every [md_cyc] cycles, type 1 otherwise. *)
Definition cycle_of (p : params) (n : Z) : option (Z * Z) :=
  if n =? bonds_tot p then None
  else if n mod bonds_cyc p =? 0 then
    Some (n, if (n / bonds_cyc p) mod md_cyc p =? 0 then 2 else 1)
  else None.

Definition schedule (p : params) (k : Z) : list (Z * Z) :=
  omap (cycle_of p) (seqZ 1 k).

Definition cycle_inv (p : params) (s : state) : Prop :=
  0 ≤ bonds s ∧ cycle_runs (trace s) = schedule p (bonds s).

(** ** The working directory *)

(** What the log must show of the working directory, for the run
    directory [top]: the cursor never leaves the tree below [top]; a step
    back to the parent starts below [top]; the counter is raised, and
    finalization announced, in [top] itself. *)
Definition cursor_entry (top : path) (e : entry) : Prop :=
  top `suffix_of` e_cwd e ∧
  (is_leave e = true → e_cwd e ≠ top) ∧
  (e_ev e = EvSetBonds (e_bonds e + 1) → e_cwd e = top) ∧
  (e_ev e = EvPrint "Finalization:" → e_cwd e = top).

(** At no point of the log have more stages been left than entered. *)
Definition bracketed (tr : list entry) : Prop :=
  ∀ pre, pre `prefix_of` tr → (count is_leave pre ≤ count is_enter pre)%nat.

(** The cursor is below [top], as deep as there are stage directories
    entered and not yet left, and the log is as it must be. *)
Definition cursor_inv (top : path) (s : state) : Prop :=
  top `suffix_of` cwd s ∧
  (length (cwd s) + count is_leave (trace s) =
   length top + count is_enter (trace s))%nat ∧
  Forall (cursor_entry top) (trace s) ∧
  bracketed (trace s).

(** ** The parts of a run *)

(** All that [main] does before [polym_final] is called. *)
Definition before_final (p : params) (env : oracle) : M unit :=
  print_header p ;;
  polym_init p env ;;
  setup_step ;;
  em p env ;;
  do b <- gets bonds;
  polym_loop_while p env (Z.to_nat (bonds_tot p - b)).

(** All that [main] does before the main loop is entered. *)
Definition before_loop (p : params) (env : oracle) : M unit :=
  print_header p ;;
  polym_init p env ;;
  setup_step ;;
  em p env.

(** The states in which a run of [main] that started in [s0] stands at
    the top of its main loop: the state in which the loop is reached, and
    the state after every turn that does not leave the loop. *)
Inductive loop_state (p : params) (env : oracle) (s0 : state) : state → Prop :=
  | loop_first s :
      before_loop p env s0 = (Ok tt, s) → loop_state p env s0 s
  | loop_next s s' :
      loop_state p env s0 s →
      bonds s < bonds_tot p →
      polym_loop_body p env s = (Ok false, s') →
      loop_state p env s0 s'.

(** The first three statements of a turn of the main loop: the counter
    is raised, the step directory set up, and [polym_step] called; the
    result is that of [polym_step]. *)
Definition attempt_bond (p : params) (env : oracle) : M Z :=
  do b <- gets bonds;
  set_bonds (b + 1) ;;
  setup_step ;;
  polym_step p env.

(** ** Stage directories *)

(** The names [setup_step] and [setup_md] give to the directory they
    make. *)
Definition step_dir (b : Z) : string := String.append "step_" (fmt_03d b).

Definition md_dir (b num : Z) : string :=
  if num =? 0 then cat ["step_"; fmt_03d b; "_md"]
  else String.append "md_" (fmt_03d num).

(** A file system in which whatever exists lies in a directory that
    exists. *)
Definition fs_wf (m : gmap (list string) node) : Prop :=
  map_Forall (λ k _, match k with
                     | [] => True
                     | _ :: d => m !! d = Some Dir
                     end) m.

(** ** What becomes of the stage directories *)

(** From [m] to [m'] no directory was lost. *)
Definition keeps_dirs (m m' : gmap (list string) node) : Prop :=
  ∀ d, m !! d = Some Dir → m' !! d = Some Dir.

(** Every directory made so far is still there. *)
Definition dirs_kept (s : state) : Prop :=
  ∀ d, d ∈ mkdirs (trace s) → fs s !! d = Some Dir.

(** ** Removed: the stage directories are gone when [keep] is 0 *)

(** [d] is, or lies in, an entry of [top] whose name starts with "step_". *)
Definition under_step (top d : path) : Prop :=
  ∃ n, String.prefix "step_" n = true ∧ (n :: top) `suffix_of` d.

(** In the run directory: the directories made so far were stage
    directories and are gone. *)
Definition clean0 (top : path) (s : state) : Prop :=
  ∀ d, d ∈ mkdirs (trace s) → under_step top d ∧ fs s !! d = None.

(** In the stage directory [r] of the run directory, or below it: [r] is
    there, and the directories made so far are gone or lie in [r]. *)
Definition clean1 (top : path) (r : string) (s : state) : Prop :=
  String.prefix "step_" r = true ∧
  fs s !! (r :: top) = Some Dir ∧
  ∀ d, d ∈ mkdirs (trace s) →
    under_step top d ∧ (fs s !! d = None ∨ (r :: top) `suffix_of` d).

(** A place that is in the stage directory [root], or in an entry of
    [top] that is no stage directory. *)
Definition anchored (top : path) (root : option string) (k : path) : Prop :=
  (∃ r, root = Some r ∧ (r :: top) `suffix_of` k) ∨
  (∃ f, String.prefix "step_" f = false ∧ (f :: top) `suffix_of` k).

(** What the controller and the programs do to the files, removal of
    trees apart: nothing, a file written where no directory is, or a file
    removed. *)
Definition writes (top : path) (root : option string)
    (m m' : gmap (list string) node) : Prop :=
  m' = m ∨
  (∃ k c, m' = <[k := File c]> m ∧ m !! k ≠ Some Dir ∧ (k = top ∨ anchored top root k)) ∨
  (∃ k c, m !! k = Some (File c) ∧ m' = delete k m).

(** [shutil.copy] from [ps] to [pd] took [m] to [m']. *)
Definition file_copied (ps pd : path) (m m' : gmap (list string) node) : Prop :=
  ∃ c k, m !! ps = Some (File c) ∧
         (k = pd ∨ (k = hd "" ps :: pd ∧ m !! pd = Some Dir)) ∧
         m !! k ≠ Some Dir ∧ m' = <[k := File c]> m.

(** A file may have been written at [k]. *)
Definition file_put (k : path) (m m' : gmap (list string) node) : Prop :=
  m' = m ∨ ∃ c, m' = <[k := File c]> m ∧ m !! k ≠ Some Dir.

(** The file at [k] was removed. *)
Definition file_removed (k : path) (m m' : gmap (list string) node) : Prop :=
  ∃ c, m !! k = Some (File c) ∧ m' = delete k m.

(** ** How a run may end *)



(** ** The artifacts of the run directory *)

(** What finalization needs of the run directory [top]: [temp.lmps] is a
    file there, and [final.lmps] is not a directory. *)
Definition artifacts (top : path) (s : state) : Prop :=
  is_file (fs s !! ("temp.lmps" :: top)) = true ∧
  fs s !! ("final.lmps" :: top) ≠ Some Dir.

(** * A small run directory, and two ways the programs may behave *)

Definition demo_top : path := ["run"].

Definition demo_files : gmap (list string) node :=
  list_to_map
    [ ([], Dir);
      (["run"], Dir);
      (["data.lmps"; "run"], File "pack");
      (["types.txt"; "run"], File "types");
      (["scripts"; "run"], Dir);
      (["polym.in"; "scripts"; "run"], File "polym");
      (["min.in"; "scripts"; "run"], File "min");
      (["md0.in"; "scripts"; "run"], File "md0");
      (["md1.in"; "scripts"; "run"], File "md1");
      (["md2.in"; "scripts"; "run"], File "md2") ].

(** The setup of the file, with [bonds_tot], [md_max] and [keep] to
    choose, and a short LAMMPS command. *)
Definition demo_params (tot maxa k : Z) : params := {|
  bonds_tot := tot;
  bonds_cyc := 5;
  md_cyc := 3;
  md_max := maxa;
  keep := k;
  input_polym := "polym.in";
  input_min := "min.in";
  input_md0 := "md0.in";
  input_md1 := "md1.in";
  input_md2 := "md2.in";
  script_step := "polym.pl";
  script_init := Some "polym_init.pl";
  script_final := Some "polym_final.pl";
  lmps := "lmp_serial"
|}.

(** The same, with [script_init = 0] and [script_final = 0]. *)
Definition demo_params_no_scripts : params := {|
  bonds_tot := 2;
  bonds_cyc := 5;
  md_cyc := 3;
  md_max := 1;
  keep := 0;
  input_polym := "polym.in";
  input_min := "min.in";
  input_md0 := "md0.in";
  input_md1 := "md1.in";
  input_md2 := "md2.in";
  script_step := "polym.pl";
  script_init := None;
  script_final := None;
  lmps := "lmp_serial"
|}.

(** Every program succeeds and writes its output file. *)
Definition env_ok : oracle := λ _ _ _, (0, Some "out").

(** The topology tool never finds a pair (exit status 3); the other
    programs succeed. *)
Definition env_nc : oracle := λ t _ _,
  match t with
  | ToolStep => (3, None)
  | _ => (0, Some "out")
  end.

(** The run directory between two turns of the main loop: [temp.lmps] is
    there. *)
Definition demo_loop_state : state := {|
  bonds := 0;
  cwd := demo_top;
  fs := <[["temp.lmps"; "run"] := File "pack"]> demo_files;
  trace := []
|}.

(** Inside [step_001], as [setup_step] leaves it. *)
Definition demo_step_state : state := {|
  bonds := 1;
  cwd := ["step_001"; "run"];
  fs := <[["init.lmps"; "step_001"; "run"] := File "pack"]>
          (<[["step_001"; "run"] := Dir]> (fs demo_loop_state));
  trace := []
|}.

(** The run directory with a stale [step_000] and a stale [md_001] in
    it. *)
Definition demo_stale_state : state := {|
  bonds := 0;
  cwd := demo_top;
  fs := <[["md_001"; "run"] := File "old"]>
          (<[["step_000"; "run"] := Dir]> (fs demo_loop_state));
  trace := []
|}.

(** [fs_wf], as a test. *)
Definition fs_wfb (m : gmap (list string) node) : bool :=
  forallb (λ kv : list string * node,
             match kv.1 with
             | [] => true
             | _ :: d => match m !! d with Some Dir => true | _ => false end
             end) (map_to_list m).

(** The state in which the run with [env_nc] reaches its main loop. *)
Definition demo_first_turn : state :=
  (before_loop (demo_params 2 1 0) env_nc (start demo_top demo_files)).2.

(** * Reading a state that was written to *)

Lemma bonds_log ev s : bonds (log_st ev s) = bonds s.
Proof. done. Qed.
Lemma bonds_set_fs m s : bonds (set_fs_st m s) = bonds s.
Proof. done. Qed.
Lemma bonds_set_cwd d s : bonds (set_cwd_st d s) = bonds s.
Proof. done. Qed.
Lemma bonds_set_bonds v s : bonds (set_bonds_st v s) = v.
Proof. done. Qed.
Lemma cwd_log ev s : cwd (log_st ev s) = cwd s.
Proof. done. Qed.
Lemma cwd_set_fs m s : cwd (set_fs_st m s) = cwd s.
Proof. done. Qed.
Lemma cwd_set_cwd d s : cwd (set_cwd_st d s) = d.
Proof. done. Qed.
Lemma cwd_set_bonds v s : cwd (set_bonds_st v s) = cwd s.
Proof. done. Qed.
Lemma fs_log ev s : fs (log_st ev s) = fs s.
Proof. done. Qed.
Lemma fs_set_fs m s : fs (set_fs_st m s) = m.
Proof. done. Qed.
Lemma fs_set_cwd d s : fs (set_cwd_st d s) = fs s.
Proof. done. Qed.
Lemma fs_set_bonds v s : fs (set_bonds_st v s) = fs s.
Proof. done. Qed.
Lemma trace_set_fs m s : trace (set_fs_st m s) = trace s.
Proof. done. Qed.
Lemma trace_set_cwd d s : trace (set_cwd_st d s) = trace s.
Proof. done. Qed.
Lemma trace_set_bonds v s : trace (set_bonds_st v s) = trace s.
Proof. done. Qed.
Lemma trace_log ev s :
  trace (log_st ev s) = trace s ++ [{| e_bonds := bonds s; e_cwd := cwd s; e_ev := ev |}].
Proof. done. Qed.

Create Rewrite HintDb st.
#[export] Hint Rewrite bonds_log bonds_set_fs bonds_set_cwd bonds_set_bonds
  cwd_log cwd_set_fs cwd_set_cwd cwd_set_bonds
  fs_log fs_set_fs fs_set_cwd fs_set_bonds
  trace_set_fs trace_set_cwd trace_set_bonds : st.

Arguments log_st : simpl never.
Arguments set_fs_st : simpl never.
Arguments set_cwd_st : simpl never.
Arguments set_bonds_st : simpl never.

(** * Rules *)

Lemma wp_ret {A} (a : A) s Q E : Q a s → wp (ret a) s Q E.
Proof. done. Qed.

Lemma wp_bind {A B} (m : M A) (f : A → M B) s Q E :
  wp m s (λ a s', wp (f a) s' Q E) E → wp (bind m f) s Q E.
Proof. unfold wp, bind. by destruct (m s) as [[a|x] s']. Qed.

Lemma wp_conseq {A} (m : M A) s (Q Q' : A → state → Prop) (E E' : failure → state → Prop) :
  wp m s Q' E' → (∀ a s', Q' a s' → Q a s') → (∀ x s', E' x s' → E x s') → wp m s Q E.
Proof. unfold wp. destruct (m s) as [[a|x] s']; auto. Qed.

Lemma wp_run {A} (m : M A) s Q E r s' :
  wp m s Q E → m s = (r, s') →
  match r with Ok a => Q a s' | Fail x => E x s' end.
Proof. unfold wp. intros H Hrun. by rewrite Hrun in H. Qed.

(** A run that returns [a] is the pair of [a] and its final state. *)
Lemma run_eq {A} (m : M A) s (r : result A) : (m s).1 = r → m s = (r, (m s).2).
Proof. destruct (m s) as [r' s']. by intros <-. Qed.

Lemma wp_gets {A} (f : state → A) s Q E : Q (f s) s → wp (gets f) s Q E.
Proof. done. Qed.

Lemma wp_raise {A} e s (Q : A → state → Prop) E : E (Raise e) s → wp (raise e) s Q E.
Proof. done. Qed.

Lemma wp_out_of_fuel {A} s (Q : A → state → Prop) E : E OutOfFuel s → wp out_of_fuel s Q E.
Proof. done. Qed.

Lemma wp_sys_exit {A} c s (Q : A → state → Prop) E : E (SysExit c) s → wp (sys_exit c) s Q E.
Proof. done. Qed.

Lemma wp_emit e s Q E : Q tt (log_st e s) → wp (emit e) s Q E.
Proof. done. Qed.

Lemma wp_print msg s Q E : Q tt (log_st (EvPrint msg) s) → wp (print msg) s Q E.
Proof. done. Qed.

Lemma wp_err_exit {A} msg s (Q : A → state → Prop) E :
  E (SysExit 1) (log_st (EvPrint (String.append "Error: " msg)) s) → wp (err_exit msg) s Q E.
Proof. done. Qed.

Lemma wp_set_bonds v s Q E :
  Q tt (set_bonds_st v (log_st (EvSetBonds v) s)) → wp (set_bonds v) s Q E.
Proof. done. Qed.

Lemma wp_path_exists r s Q E :
  Q (bool_decide (is_Some (fs s !! resolve (cwd s) r))) s → wp (path_exists r) s Q E.
Proof. done. Qed.

Lemma wp_isfile r s Q E :
  Q (is_file (fs s !! resolve (cwd s) r)) s → wp (isfile r) s Q E.
Proof. done. Qed.

Lemma wp_makedirs r s Q E :
  Q tt (set_fs_st (<[resolve (cwd s) r := Dir]> (fs s)) (log_st (EvMkdir (resolve (cwd s) r)) s)) →
  wp (makedirs r) s Q E.
Proof. done. Qed.

Lemma wp_chdir r s Q E :
  Q tt (set_cwd_st (resolve (cwd s) r) (log_st (EvChdir r) s)) → wp (chdir r) s Q E.
Proof. done. Qed.

(** The file operations, for properties that do not look at the files. *)
Lemma wp_copy_any src dst s (Q : unit → state → Prop) E :
  (∀ m a b, Q tt (set_fs_st m (log_st (EvCopy a b) s))) →
  (∀ e, E (Raise e) s) →
  wp (copy src dst) s Q E.
Proof. intros HQ HE. unfold wp, copy. repeat case_match; simplify_eq; first [apply HQ | apply HE]. Qed.

Lemma wp_remove_any r s (Q : unit → state → Prop) E :
  (∀ m a, Q tt (set_fs_st m (log_st (EvRemove a) s))) →
  (∀ e, E (Raise e) s) →
  wp (remove r) s Q E.
Proof. intros HQ HE. unfold wp, remove. repeat case_match; simplify_eq; first [apply HQ | apply HE]. Qed.

Lemma wp_open_w_any r s (Q : unit → state → Prop) E :
  (∀ m a, Q tt (set_fs_st m (log_st (EvOpen a) s))) →
  (∀ e, E (Raise e) s) →
  wp (open_w r) s Q E.
Proof. intros HQ HE. unfold wp, open_w. repeat case_match; simplify_eq; first [apply HQ | apply HE]. Qed.

Lemma wp_rmtree_any n s (Q : unit → state → Prop) E :
  (∀ m a, Q tt (set_fs_st m (log_st (EvRmtree a) s))) →
  (∀ e, E (Raise e) s) →
  wp (rmtree n) s Q E.
Proof. intros HQ HE. unfold wp, rmtree. repeat case_match; simplify_eq; first [apply HQ | apply HE]. Qed.

Lemma wp_glob pre s Q E :
  Q (omap (λ kv, glob_match pre (cwd s) kv.1) (map_to_list (fs s))) s → wp (glob pre) s Q E.
Proof. done. Qed.

Lemma wp_call_any env t cmd out s (Q : Z → state → Prop) E :
  (∀ code, Q code (log_st (EvCall t cmd) s)) →
  (∀ code m, Q code (set_fs_st m (log_st (EvCall t cmd) s))) →
  wp (call env t cmd out) s Q E.
Proof.
  intros H1 H2. unfold wp, call. destruct (env t cmd s) as [code [c|]]; auto.
Qed.

Lemma wp_call_abs env t cmd out s (Q : Z → state → Prop) E :
  (∀ code s1,
     bonds s1 = bonds s → cwd s1 = cwd s →
     trace s1 = trace (log_st (EvCall t cmd) s) → Q code s1) →
  wp (call env t cmd out) s Q E.
Proof.
  intros H. unfold wp, call. destruct (env t cmd s) as [code [c|]]; by apply H.
Qed.

(** A loop over a list keeps what each of its turns keeps. *)
Lemma wp_for_each {A} (I : state → Prop) (l : list A) (body : A → M unit) E :
  (∀ x s1, I s1 → wp (body x) s1 (λ _, I) E) →
  ∀ s, I s → wp (for_each l body) s (λ _, I) E.
Proof.
  intros Hbody. induction l as [|x l IH]; intros s Hs; simpl.
  - by apply wp_ret.
  - apply wp_bind. eapply wp_conseq; [by apply Hbody | | done].
    intros [] s1 H1. by apply IH.
Qed.

(** One step of symbolic execution; the file operations are taken with
    the rules that forget what they do to the files. *)
Ltac wp_step :=
  lazymatch goal with
  | |- wp (bind _ _) _ _ _ => apply wp_bind
  | |- wp (ret _) _ _ _ => apply wp_ret
  | |- wp (gets _) _ _ _ => apply wp_gets
  | |- wp (raise _) _ _ _ => apply wp_raise
  | |- wp out_of_fuel _ _ _ => apply wp_out_of_fuel
  | |- wp (sys_exit _) _ _ _ => apply wp_sys_exit
  | |- wp (emit _) _ _ _ => apply wp_emit
  | |- wp (print _) _ _ _ => apply wp_print
  | |- wp (err_exit _) _ _ _ => apply wp_err_exit
  | |- wp (set_bonds _) _ _ _ => apply wp_set_bonds
  | |- wp (path_exists _) _ _ _ => apply wp_path_exists
  | |- wp (isfile _) _ _ _ => apply wp_isfile
  | |- wp (makedirs _) _ _ _ => apply wp_makedirs
  | |- wp (chdir _) _ _ _ => apply wp_chdir
  | |- wp (glob _) _ _ _ => apply wp_glob
  | |- wp (copy _ _) _ _ _ => apply wp_copy_any; [intros ? ? ? | intros ?]
  | |- wp (remove _) _ _ _ => apply wp_remove_any; [intros ? ? | intros ?]
  | |- wp (open_w _) _ _ _ => apply wp_open_w_any; [intros ? ? | intros ?]
  | |- wp (rmtree _) _ _ _ => apply wp_rmtree_any; [intros ? ? | intros ?]
  | |- wp (call _ _ _ _) _ _ _ => apply wp_call_any; [intros ? | intros ? ?]
  | |- wp (py_mod _ _) _ _ _ => unfold py_mod
  | |- wp (if ?b then _ else _) _ _ _ => destruct b eqn:?
  | |- wp (match ?x with _ => _ end) _ _ _ => destruct x eqn:?
  end; cbv beta zeta.

Ltac wp_go := repeat wp_step.

(** ** Counting in the log *)

Lemma count_app f (l1 l2 : list entry) :
  count f (l1 ++ l2) = (count f l1 + count f l2)%nat.
Proof. induction l1 as [|e l1 IH]; simpl; [done | rewrite IH; lia]. Qed.

Lemma count_none f (l : list entry) :
  Forall (λ e, f e = false) l → count f l = O.
Proof. induction 1 as [|e l He _ IH]; simpl; [done | by rewrite He, IH]. Qed.

Lemma is_call_inv t e : is_call t e = true → ∃ cmd, e_ev e = EvCall t cmd.
Proof.
  unfold is_call. destruct (e_ev e) as [| | | | | | |t' cmd| |]; try done.
  destruct t, t'; try done; intros H; eauto.
  apply Z.eqb_eq in H as ->. eauto.
Qed.

Lemma only_refl t : only t t = true.
Proof. destruct t; simpl; try done. apply Z.eqb_refl. Qed.

(** ** What the stage operations leave alone *)

Lemma frame_refl ts s : frame ts s s.
Proof. split; [done|]. exists []. by rewrite app_nil_r. Qed.

Lemma frame_log ts s0 s ev :
  quiet ts ev = true → frame ts s0 s → frame ts s0 (log_st ev s).
Proof.
  intros Hq [Hb (new & Ht & Hall)]. split; [done|].
  exists (new ++ [{| e_bonds := bonds s; e_cwd := cwd s; e_ev := ev |}]). split.
  - simpl. by rewrite Ht, app_assoc.
  - apply Forall_app. split; [done|]. by repeat constructor.
Qed.

Lemma frame_fs ts s0 s m : frame ts s0 s → frame ts s0 (set_fs_st m s).
Proof. done. Qed.

Lemma frame_cwd ts s0 s d : frame ts s0 s → frame ts s0 (set_cwd_st d s).
Proof. done. Qed.

Lemma frame_mono (ts ts' : tool → bool) s0 s :
  (∀ t, ts t = true → ts' t = true) → frame ts s0 s → frame ts' s0 s.
Proof.
  intros Hsub [Hb (new & Ht & Hall)]. split; [done|]. exists new. split; [done|].
  eapply Forall_impl; [done|]. intros e [? Hq]. split; [done|].
  destruct (e_ev e); simpl in *; auto.
Qed.

Lemma frame_trans ts s0 s1 s2 : frame ts s0 s1 → frame ts s1 s2 → frame ts s0 s2.
Proof.
  intros [Hb1 (n1 & Ht1 & Ha1)] [Hb2 (n2 & Ht2 & Ha2)]. split; [congruence|].
  exists (n1 ++ n2). split; [by rewrite Ht2, Ht1, app_assoc|].
  apply Forall_app. split; [done|].
  eapply Forall_impl; [done|]. intros e [? ?]. split; congruence.
Qed.

Lemma frame_bonds ts s0 s : frame ts s0 s → bonds s = bonds s0.
Proof. by intros [? _]. Qed.

Lemma frame_count ts s0 s f :
  (∀ e, f e = true → quiet ts (e_ev e) = false) →
  frame ts s0 s → count f (trace s) = count f (trace s0).
Proof.
  intros Hf [_ (new & -> & Hall)]. rewrite count_app, (count_none f new); [lia|].
  eapply Forall_impl; [done|]. intros e [_ Hq]. simpl in Hq.
  destruct (f e) eqn:Hfe; [|done]. apply Hf in Hfe. congruence.
Qed.

Lemma frame_count_call ts s0 s t :
  ts t = false → frame ts s0 s →
  count (is_call t) (trace s) = count (is_call t) (trace s0).
Proof.
  intros Ht. apply frame_count. intros e [cmd He]%is_call_inv. by rewrite He.
Qed.

Lemma frame_sets ts s0 s : frame ts s0 s → sets (trace s) = sets (trace s0).
Proof.
  intros [_ (new & -> & Hall)]. unfold sets. rewrite omap_app.
  rewrite <- (app_nil_r (omap _ (trace s0))) at 2. f_equal.
  induction Hall as [|e l [_ He] _ IH]; [done|]. simpl.
  destruct (e_ev e); simpl in *; try done.
Qed.

Lemma frame_cycle_runs ts s0 s :
  (∀ n, ts (ToolMd n) = true → n = 0) →
  frame ts s0 s → cycle_runs (trace s) = cycle_runs (trace s0).
Proof.
  intros Hts [_ (new & -> & Hall)]. unfold cycle_runs. rewrite omap_app.
  rewrite <- (app_nil_r (omap _ (trace s0))) at 2. f_equal.
  induction Hall as [|e l [_ He] _ IH]; [done|]. simpl.
  destruct (e_ev e) as [| | | | | | |t cmd| |]; simpl in *; try done.
  destruct t; try done. apply Hts in He as ->. done.
Qed.

Lemma frame_entries ts s0 s (P : entry → Prop) :
  (∀ e, e_bonds e = bonds s0 → quiet ts (e_ev e) = true → P e) →
  frame ts s0 s → Forall P (trace s0) → Forall P (trace s).
Proof.
  intros HP [_ (new & -> & Hall)] H0. apply Forall_app. split; [done|].
  eapply Forall_impl; [done|]. intros e [? ?]. auto.
Qed.

Ltac frame_solve :=
  repeat first
    [ assumption
    | match goal with |- frame_fail _ _ _ _ => split; [discriminate|] end
    | lazymatch goal with
      | |- frame _ _ ?s =>
          tryif is_evar s then fail
          else first
            [ apply frame_fs
            | apply frame_cwd
            | apply frame_log; [first [reflexivity | assumption | apply only_refl] |]
            | apply frame_refl ]
      end ].

Section Frames.

Context (p : params) (env : oracle) (ts : tool → bool).

Lemma rm_glob_frame pre s0 s :
  frame ts s0 s → wp (rm_glob pre) s (λ _, frame ts s0) (frame_fail ts s0).
Proof.
  intros H. unfold rm_glob. wp_go.
  apply (wp_for_each (frame ts s0)); [|done].
  intros n s1 H1. wp_go; frame_solve.
Qed.

Lemma setup_step_frame s0 s :
  frame ts s0 s → wp setup_step s (λ _, frame ts s0) (frame_fail ts s0).
Proof. intros H. unfold setup_step. wp_go; frame_solve. Qed.

Lemma setup_md_frame num s0 s :
  frame ts s0 s → wp (setup_md num) s (λ _, frame ts s0) (frame_fail ts s0).
Proof. intros H. unfold setup_md. wp_go; frame_solve. Qed.

Lemma em_frame s0 s :
  ts ToolEm = true →
  frame ts s0 s → wp (em p env) s (λ _, frame ts s0) (frame_fail ts s0).
Proof.
  intros Hts H. unfold em. wp_go; frame_solve; apply rm_glob_frame; frame_solve.
Qed.

Lemma md_frame num s0 s :
  ts (ToolMd num) = true →
  frame ts s0 s → wp (md p env num) s (λ _, frame ts s0) (frame_fail ts s0).
Proof.
  intros Hts H. unfold md. wp_go; frame_solve; apply rm_glob_frame; frame_solve.
Qed.

Lemma polym_init_frame s0 s :
  ts ToolInit = true →
  frame ts s0 s → wp (polym_init p env) s (λ _, frame ts s0) (frame_fail ts s0).
Proof. intros Hts H. unfold polym_init. wp_go; frame_solve. Qed.

Lemma polym_final_frame s0 s :
  ts ToolFinal = true →
  frame ts s0 s → wp (polym_final p env) s (λ _, frame ts s0) (frame_fail ts s0).
Proof. intros Hts H. unfold polym_final. wp_go; frame_solve. Qed.

End Frames.

(** * The two loops *)

Section Loops.

Context (p : params) (env : oracle).

(** The rule of the main loop: an invariant [I] kept by every turn that
    does not leave the loop, and a condition [Q] established by every way
    out.  A turn that stays raises [bonds], so the fuel that
    [polym_loop] provides is enough. *)
Lemma polym_loop_while_rule (I Q : state → Prop) (E : failure → state → Prop) :
  (∀ s, I s → bonds s < bonds_tot p →
     wp (polym_loop_body p env) s
       (λ stop s', if stop then Q s' else I s' ∧ bonds s < bonds s') E) →
  (∀ s, I s → bonds_tot p ≤ bonds s → Q s) →
  ∀ fuel s, I s → (Z.to_nat (bonds_tot p - bonds s) ≤ fuel)%nat →
    wp (polym_loop_while p env fuel) s (λ _, Q) E.
Proof.
  intros Hbody Hexit. induction fuel as [|fuel IH]; intros s HI Hfuel.
  - simpl. wp_go; [lia|]. apply Hexit; [done|lia].
  - simpl. wp_go; [|apply Hexit; [done|lia]].
    eapply wp_conseq; [apply Hbody; [done|lia] | | done].
    intros [] s' H; cbv beta; [by apply wp_ret|].
    destruct H as [HI' Hlt]. apply IH; [done|lia].
Qed.

(** [polym_step] leaves [bonds] alone when it returns 0 and lowers it by
    one when it returns 1; it returns nothing else. *)
Lemma polym_step_while_frame ts fuel : ∀ a s0 s,
  ts ToolStep = true → ts (ToolMd 0) = true →
  (Z.to_nat (md_max p + 1 - a) < fuel)%nat →
  frame ts s0 s →
  wp (polym_step_while p env fuel a) s
    (λ code s', (code = 0 ∧ frame ts s0 s') ∨ (code = 1 ∧ rolled_back ts s0 s'))
    (λ x s', x ≠ OutOfFuel ∧ (frame ts s0 s' ∨ rolled_back ts s0 s')).
Proof.
  induction fuel as [|fuel IH]; intros a s0 s Hstep Hmd Hfuel Hs; [lia|].
  simpl. apply wp_bind, wp_call_abs. intros code s1 Hb1 _ Htr.
  assert (Hs1 : frame ts s0 s1).
  { eapply frame_trans; [apply Hs|]. split; [done|]. eexists. split; [apply Htr|].
    repeat constructor; simpl; by rewrite ?Hb1. }
  clear Htr. destruct (code =? 0) eqn:H0; [|destruct (code =? 3) eqn:H3].
  - wp_go.
    + split; [done|]. left. frame_solve.
    + left. split; [done|]. frame_solve.
  - destruct (a >? md_max p) eqn:Ha.
    + wp_go.
      * eapply wp_conseq; [apply (rm_glob_frame ts), frame_refl | |].
        -- intros [] s' Hf. apply wp_ret. right. split; [done|].
           exists (log_st (EvPrint "  No pair was found within the maximum number of attempts.") s1).
           split; [|eapply frame_trans; [|apply Hf]]; frame_solve.
        -- intros x s' [Hx Hf]. split; [done|]. right.
           exists (log_st (EvPrint "  No pair was found within the maximum number of attempts.") s1).
           split; [|eapply frame_trans; [|apply Hf]]; frame_solve.
      * right. split; [done|].
        exists (log_st (EvPrint "  No pair was found within the maximum number of attempts.") s1).
        split; frame_solve.
    + apply wp_bind.
      eapply wp_conseq; [apply (setup_md_frame ts), Hs1 | |].
      * intros [] s2 Hf2. apply wp_bind.
        eapply wp_conseq; [apply (md_frame p env ts 0); [done|apply Hf2] | |].
        -- intros [] s3 Hf3. cbv beta. apply IH; [done|done|lia|done].
        -- intros x s3 [Hx Hf3]. split; [done|]. by left.
      * intros x s2 [Hx Hf2]. split; [done|]. by left.
  - wp_go. split; [done|]. left. frame_solve.
Qed.

Lemma polym_step_frame ts s0 s :
  ts ToolStep = true → ts (ToolMd 0) = true →
  frame ts s0 s →
  wp (polym_step p env) s
    (λ code s', (code = 0 ∧ frame ts s0 s') ∨ (code = 1 ∧ rolled_back ts s0 s'))
    (λ x s', x ≠ OutOfFuel ∧ (frame ts s0 s' ∨ rolled_back ts s0 s')).
Proof. intros. apply polym_step_while_frame; [done|done|lia|done]. Qed.

Lemma cycle_md_frame ts s0 s :
  ts (ToolMd 1) = true → ts (ToolMd 2) = true →
  frame ts s0 s →
  wp (cycle_md p env) s (λ _, frame ts s0) (frame_fail ts s0).
Proof.
  intros H1 H2 Hs. unfold cycle_md. wp_go; frame_solve.
  eapply wp_conseq; [by apply (setup_md_frame ts) | | done].
  intros [] s1 Hs1. wp_go; frame_solve; by apply md_frame.
Qed.

(** One turn of the main loop: [bonds] is raised by one, and lowered
    again only if the loop is left on exhaustion. *)
Lemma polym_loop_body_frame s :
  wp (polym_loop_body p env) s
    (λ stop s',
       if stop then
         (frame loop_tools (incr_st s) s' ∧ bonds s + 1 = bonds_tot p) ∨
         rolled_back loop_tools (incr_st s) s'
       else frame loop_tools (incr_st s) s' ∧ bonds s + 1 ≠ bonds_tot p)
    (λ x s',
       x ≠ OutOfFuel ∧
       (frame loop_tools (incr_st s) s' ∨ rolled_back loop_tools (incr_st s) s')).
Proof.
  unfold polym_loop_body. wp_go. fold (incr_st s).
  eapply wp_conseq; [apply (setup_step_frame loop_tools), frame_refl | |];
    [|intros x s1 [Hx Hf]; split; [done|by left]].
  intros [] s1 Hf1. apply wp_bind.
  eapply wp_conseq; [by apply (polym_step_frame loop_tools) | |];
    [|intros x s2 [Hx Hf2]; by split].
  intros code s2 [[-> Hf2]|[-> Hf2]]; simpl; [|apply wp_ret; by right].
  apply wp_bind.
  eapply wp_conseq; [by apply (em_frame p env loop_tools) | |];
    [|intros x s3 [Hx Hf3]; split; [done|by left]].
  intros [] s3 Hf3. wp_go.
  - left. split; [done|]. rewrite (frame_bonds _ _ _ Hf3) in *. simpl in *. lia.
  - eapply wp_conseq; [by apply (cycle_md_frame loop_tools) | |];
      [|intros x s4 [Hx Hf4]; split; [done|by left]].
    intros [] s4 Hf4. apply wp_ret. split; [done|].
    rewrite (frame_bonds _ _ _ Hf3) in *. simpl in *. lia.
Qed.

End Loops.

(** * The attempt bound of [polym_step] *)

Lemma ext_refl s : ext 0 s s.
Proof. split; [done | lia]. Qed.

Lemma ext_log k s0 s ev :
  (∀ cmd, ev ≠ EvCall ToolStep cmd) → ext k s0 s → ext k s0 (log_st ev s).
Proof.
  intros Hev [Hp Hc]. split.
  - simpl. by apply prefix_app_r.
  - unfold step_calls in *. simpl. rewrite count_app, Hc. simpl.
    destruct (is_call ToolStep _) eqn:Hcall; [|lia].
    apply is_call_inv in Hcall as [cmd Hcall]. simpl in Hcall. by destruct (Hev cmd).
Qed.

Lemma ext_call k s0 s cmd :
  ext k s0 s → ext (S k) s0 (log_st (EvCall ToolStep cmd) s).
Proof.
  intros [Hp Hc]. split.
  - simpl. by apply prefix_app_r.
  - unfold step_calls in *. simpl. rewrite count_app, Hc. simpl. lia.
Qed.

Lemma ext_fs k s0 s m : ext k s0 s → ext k s0 (set_fs_st m s).
Proof. done. Qed.

Lemma ext_cwd k s0 s d : ext k s0 s → ext k s0 (set_cwd_st d s).
Proof. done. Qed.

Lemma ext_bonds k s0 s v : ext k s0 s → ext k s0 (set_bonds_st v s).
Proof. done. Qed.

Lemma ext_frame ts k s0 s1 s2 :
  ts ToolStep = false → ext k s0 s1 → frame ts s1 s2 → ext k s0 s2.
Proof.
  intros Hts [Hp Hc] Hf. split.
  - destruct Hf as [_ (new & -> & _)]. by apply prefix_app_r.
  - unfold step_calls in *. by rewrite (frame_count_call ts s1 s2 ToolStep Hts Hf).
Qed.

Lemma ext_trans k1 k2 s0 s1 s2 : ext k1 s0 s1 → ext k2 s1 s2 → ext (k1 + k2) s0 s2.
Proof. intros [Hp1 Hc1] [Hp2 Hc2]. split; [by etrans | lia]. Qed.

Ltac ext_solve :=
  repeat first
    [ assumption
    | lazymatch goal with
      | |- ext _ _ ?s =>
          tryif is_evar s then fail
          else first
            [ apply ext_refl
            | apply ext_fs
            | apply ext_cwd
            | apply ext_bonds
            | apply ext_call
            | apply ext_log; [intros ?; discriminate |] ]
      end ].

Section AttemptBound.

Context (p : params) (env : oracle).

Lemma polym_step_while_calls fuel : ∀ a s,
  (Z.to_nat (md_max p + 1 - a) < fuel)%nat →
  wp (polym_step_while p env fuel a) s
    (λ code s',
       (code = 0 ∨ code = 1) ∧
       ∃ k, ext k s s' ∧ (1 ≤ k ≤ budget p a)%nat ∧ (code = 1 → k = budget p a))
    (λ x s', x ≠ OutOfFuel ∧ ∃ k, ext k s s' ∧ (1 ≤ k ≤ budget p a)%nat).
Proof.
  induction fuel as [|fuel IH]; intros a s Hfuel; [lia|].
  assert (Hb : (1 ≤ budget p a)%nat) by (unfold budget; lia).
  simpl. apply wp_bind, wp_call_abs. intros code s1 _ _ Htr.
  assert (Hs1 : ext 1 s s1).
  { split; [rewrite Htr; simpl; by apply prefix_app_r|].
    unfold step_calls. rewrite Htr. simpl. rewrite count_app. simpl. lia. }
  clear Htr. destruct (code =? 0) eqn:H0; [|destruct (code =? 3) eqn:H3].
  - wp_go.
    + split; [done|]. exists 1%nat. split; [ext_solve | lia].
    + split; [by left|]. exists 1%nat. split_and!; [ext_solve | lia | lia | done].
  - destruct (a >? md_max p) eqn:Ha.
    + assert (budget p a = 1%nat) as Hbudget by (unfold budget; lia).
      wp_go.
      * eapply wp_conseq; [apply (rm_glob_frame no_tool), frame_refl | |].
        -- intros [] s' Hf. apply wp_ret. split; [by right|]. exists 1%nat.
           split_and!; [|lia|lia|done].
           refine (ext_frame no_tool _ _ _ _ eq_refl _ Hf). ext_solve.
        -- intros x s' [Hx Hf]. split; [done|]. exists 1%nat. split; [|lia].
           refine (ext_frame no_tool _ _ _ _ eq_refl _ Hf). ext_solve.
      * split; [by right|]. exists 1%nat. split_and!; [ext_solve|lia|lia|done].
    + apply wp_bind.
      eapply wp_conseq; [apply (setup_md_frame (only (ToolMd 0))), frame_refl | |].
      * intros [] s2 Hf2. apply wp_bind.
        eapply wp_conseq; [apply (md_frame p env (only (ToolMd 0)) 0); [done|apply Hf2] | |].
        -- intros [] s3 Hf3. cbv beta.
           assert (Hs3 : ext 1 s s3)
             by exact (ext_frame _ _ _ _ _ eq_refl Hs1 Hf3).
           eapply wp_conseq; [apply (IH (a + 1)); lia | |].
           ++ intros code' s' [Hcode (k & Hext & Hk & Hex)]. split; [done|].
              exists (1 + k)%nat. split_and!.
              ** by eapply ext_trans.
              ** lia.
              ** unfold budget in *. lia.
              ** intros Hc. apply Hex in Hc. unfold budget in *. lia.
           ++ intros x s' (Hx & k & Hext & Hk). split; [done|].
              exists (1 + k)%nat. split; [by eapply ext_trans|].
              unfold budget in *. lia.
        -- intros x s3 [Hx Hf3]. split; [done|]. exists 1%nat. split; [|lia].
           exact (ext_frame _ _ _ _ _ eq_refl Hs1 Hf3).
      * intros x s2 [Hx Hf2]. split; [done|]. exists 1%nat. split; [|lia].
        exact (ext_frame _ _ _ _ _ eq_refl Hs1 Hf2).
  - wp_go. split; [done|]. exists 1%nat. split; [ext_solve|lia].
Qed.

(** The [while (1)] of [polym_step] ends although no fuel bounds it in
    the script: the counter passes [md_max] after [md_max] turns. *)
Lemma polym_step_fuel s : (polym_step p env s).1 ≠ Fail OutOfFuel.
Proof.
  pose proof (polym_step_while_calls (S (Z.to_nat (md_max p))) 1 s) as H.
  unfold wp in H. unfold polym_step.
  destruct (polym_step_while _ _ _ _ s) as [[code|x] s']; simpl; [done|].
  intros [= ->]. destruct H as [H _]; [lia | done].
Qed.

(** C1.  Within one call of [polym_step] the topology tool is started at
    most [md_max + 1] times, whatever the outcome; when the call returns 1
    (exhausted) it has been started exactly [md_max + 1] times, the counter
    having gone from 1 to [md_max + 1], the first value above [md_max].
    The call always ends. *)
Theorem polym_step_attempt_bound s r s' :
  0 ≤ md_max p →
  polym_step p env s = (r, s') →
  ∃ new, trace s' = trace s ++ new ∧
    (1 ≤ Z.of_nat (count (is_call ToolStep) new) ≤ md_max p + 1) ∧
    (r = Ok 1 → Z.of_nat (count (is_call ToolStep) new) = md_max p + 1) ∧
    r ≠ Fail OutOfFuel.
Proof.
  intros Hmax Hrun.
  pose proof (polym_step_while_calls (S (Z.to_nat (md_max p))) 1 s) as H.
  unfold polym_step in Hrun. eapply wp_run in H; [|lia|exact Hrun].
  assert (Hbud : Z.of_nat (budget p 1) = md_max p + 1) by (unfold budget; lia).
  destruct r as [code|x].
  - destruct H as (_ & k & [[new Hnew] Hcount] & Hk & Hex).
    exists new. unfold step_calls in Hcount. rewrite Hnew, count_app in Hcount.
    replace (count (is_call ToolStep) new) with k by lia.
    split_and!; [done|lia|lia| |done].
    intros [= ->]. rewrite Hex by done. lia.
  - destruct H as (Hx & k & [[new Hnew] Hcount] & Hk).
    exists new. unfold step_calls in Hcount. rewrite Hnew, count_app in Hcount.
    replace (count (is_call ToolStep) new) with k by lia.
    split_and!; [done|lia|lia|done|congruence].
Qed.

End AttemptBound.

(** * The counter [bonds] stays in range *)

Lemma seqZ_snoc (n : Z) : 0 ≤ n → seqZ 1 (n + 1) = seqZ 1 n ++ [n + 1].
Proof.
  intros Hn. rewrite seqZ_app by lia. f_equal.
  rewrite seqZ_cons by lia. simpl. rewrite Z.add_comm. f_equal.
Qed.

Lemma sets_log ev s :
  sets (trace (log_st ev s)) =
  sets (trace s) ++ match ev with EvSetBonds v => [v] | _ => [] end.
Proof. unfold sets. simpl. rewrite omap_app. simpl. by destruct ev. Qed.

Lemma bonds_inv_post p s : bonds_inv p s → bonds_post p s.
Proof. intros (? & ? & ?). split; [done|]. split; [done|by left]. Qed.

Lemma bonds_inv_frame p ts s s' : frame ts s s' → bonds_inv p s → bonds_inv p s'.
Proof.
  intros Hf (Hb & Hall & Hsets).
  rewrite <- (frame_bonds _ _ _ Hf) in Hb, Hsets. split; [done|split].
  - eapply frame_entries; [|apply Hf|done]. intros e He _.
    rewrite (frame_bonds _ _ _ Hf) in Hb. lia.
  - by rewrite (frame_sets _ _ _ Hf).
Qed.

Lemma bonds_post_frame p ts s s' : frame ts s s' → bonds_post p s → bonds_post p s'.
Proof.
  intros Hf (Hb & Hall & Hsets).
  rewrite <- (frame_bonds _ _ _ Hf) in Hb, Hsets. split; [done|split].
  - eapply frame_entries; [|apply Hf|done]. intros e He _.
    rewrite (frame_bonds _ _ _ Hf) in Hb. lia.
  - by rewrite (frame_sets _ _ _ Hf).
Qed.

Lemma bonds_inv_incr p s :
  bonds_inv p s → bonds s < bonds_tot p → bonds_inv p (incr_st s).
Proof.
  intros (Hb & Hall & Hsets) Hlt. split; [|split]; simpl.
  - lia.
  - apply Forall_app. split; [done|]. repeat constructor; simpl; lia.
  - change (trace s ++ _) with (trace (log_st (EvSetBonds (bonds s + 1)) s)).
    rewrite sets_log, Hsets, seqZ_snoc by lia. done.
Qed.

Lemma bonds_post_rolled_back p ts s s' :
  bonds_inv p s → 1 ≤ bonds s → rolled_back ts s s' → bonds_post p s'.
Proof.
  intros Hs Hpos (s1 & Hf1 & Hf2).
  pose proof (bonds_inv_frame p _ _ _ Hf1 Hs) as (Hb & Hall & Hsets).
  pose proof (frame_bonds _ _ _ Hf1) as Hb1.
  eapply bonds_post_frame; [apply Hf2|]. split; [|split]; simpl.
  - lia.
  - apply Forall_app. split; [done|]. repeat constructor; simpl; lia.
  - right. split; [lia|].
    change (trace s1 ++ _) with (trace (log_st (EvSetBonds (bonds s1 - 1)) s1)).
    rewrite sets_log, Hsets. by replace (bonds s1 - 1 + 1) with (bonds s1) by lia.
Qed.

Section Counter.

Context (p : params) (env : oracle).

Lemma polym_loop_while_bonds fuel s :
  bonds_inv p s → (Z.to_nat (bonds_tot p - bonds s) ≤ fuel)%nat →
  wp (polym_loop_while p env fuel) s
    (λ _, bonds_post p) (λ x s', x ≠ OutOfFuel ∧ bonds_post p s').
Proof.
  apply polym_loop_while_rule; [|intros; by apply bonds_inv_post].
  clear s. intros s Hs Hlt.
  pose proof (bonds_inv_incr p s Hs Hlt) as Hs1.
  assert (1 ≤ bonds (incr_st s)) by (destruct Hs as ((? & ?) & _); simpl; lia).
  eapply wp_conseq; [apply polym_loop_body_frame| |].
  - intros [] s'.
    + intros [[Hf _]|Hrb].
      * by eapply bonds_inv_post, bonds_inv_frame.
      * by eapply bonds_post_rolled_back.
    + intros [Hf _]. split; [by eapply bonds_inv_frame|].
      rewrite (frame_bonds _ _ _ Hf). simpl. lia.
  - intros x s' [Hx [Hf|Hrb]]; (split; [done|]).
    + by eapply bonds_inv_post, bonds_inv_frame.
    + by eapply bonds_post_rolled_back.
Qed.

Lemma print_header_frame ts s0 s :
  frame ts s0 s → wp (print_header p) s (λ _, frame ts s0) (frame_fail ts s0).
Proof. intros H. unfold print_header. wp_go; frame_solve. Qed.

Lemma print_footer_frame ts s0 s :
  frame ts s0 s → wp (print_footer p) s (λ _, frame ts s0) (frame_fail ts s0).
Proof.
  intros H. unfold print_footer. wp_go; frame_solve.
Qed.

Lemma main_bonds top files :
  0 ≤ bonds_tot p →
  wp (main p env) (start top files)
    (λ _, bonds_post p) (λ x s', x ≠ OutOfFuel ∧ bonds_post p s').
Proof.
  intros Htot.
  assert (H0 : bonds_inv p (start top files)).
  { split; [|split]; simpl; [lia|constructor|done]. }
  assert (Hfail : ∀ ts s x s', bonds_inv p s → frame_fail ts s x s' →
                   x ≠ OutOfFuel ∧ bonds_post p s').
  { intros ts s x s' Hs [Hx Hf]. split; [done|].
    by eapply bonds_inv_post, bonds_inv_frame. }
  unfold main, polym_loop. apply wp_bind.
  eapply wp_conseq; [apply (print_header_frame no_tool), frame_refl | | by eauto].
  intros [] s1 Hf1. apply wp_bind, wp_bind.
  eapply wp_conseq;
    [apply (polym_init_frame p env (only ToolInit)); [done|apply frame_refl] | | ];
    [|intros; eapply Hfail; [|done]; by eapply bonds_inv_frame].
  intros [] s2 Hf2. apply wp_bind.
  eapply wp_conseq; [apply (setup_step_frame no_tool), frame_refl | | ];
    [|intros; eapply Hfail; [|done]; eauto using bonds_inv_frame].
  intros [] s3 Hf3. apply wp_bind.
  eapply wp_conseq; [apply (em_frame p env (only ToolEm)); [done|apply frame_refl] | | ];
    [|intros; eapply Hfail; [|done]; eauto using bonds_inv_frame].
  intros [] s4 Hf4. apply wp_bind, wp_gets, wp_bind.
  assert (H4 : bonds_inv p s4) by eauto using bonds_inv_frame.
  eapply wp_conseq; [by apply polym_loop_while_bonds | | done].
  intros [] s5 H5. cbv beta.
  eapply wp_conseq;
    [apply (polym_final_frame p env (only ToolFinal)); [done|apply frame_refl] | | ].
  - intros [] s6 Hf6. cbv beta.
    eapply wp_conseq; [apply (print_footer_frame no_tool), frame_refl | | ].
    + intros [] s7 Hf7. eauto using bonds_post_frame.
    + intros x s7 [Hx Hf7]. split; [done|]. eauto using bonds_post_frame.
  - intros x s6 [Hx Hf6]. split; [done|]. eauto using bonds_post_frame.
Qed.

End Counter.

(** C6.  In every run, however it ends, [bonds] starts at 0; it is
    between 0 and [bonds_tot] at the start of every operation and at the
    end; the values it is given are 1, 2, ..., k in this order, followed
    at most by one single k - 1, and that one comes last. *)
Theorem bonds_in_range p env top files r s' :
  0 ≤ bonds_tot p →
  main p env (start top files) = (r, s') →
  bonds (start top files) = 0 ∧
  Forall (λ e, 0 ≤ e_bonds e ≤ bonds_tot p) (trace s') ∧
  0 ≤ bonds s' ≤ bonds_tot p ∧
  ∃ k, 0 ≤ k ≤ bonds_tot p ∧
    ((sets (trace s') = seqZ 1 k ∧ bonds s' = k) ∨
     (1 ≤ k ∧ sets (trace s') = seqZ 1 k ++ [k - 1] ∧ bonds s' = k - 1)).
Proof.
  intros Htot Hrun. split; [done|].
  pose proof (main_bonds p env top files Htot) as H.
  eapply wp_run in H; [|exact Hrun].
  assert (Hpost : bonds_post p s') by (destruct r; [done|by destruct H]).
  destruct Hpost as (Hb & Hall & [Hsets|[Hlt Hsets]]); (split; [done|]); (split; [done|]).
  - exists (bonds s'). split; [done|]. by left.
  - exists (bonds s' + 1). split; [lia|]. right.
    replace (bonds s' + 1 - 1) with (bonds s') by lia. split; [lia|]. by split.
Qed.

(** * The cycle policy *)

Lemma cycle_runs_log ev s :
  cycle_runs (trace (log_st ev s)) =
  cycle_runs (trace s) ++
  match ev with
  | EvCall (ToolMd n) _ => if n =? 0 then [] else [(bonds s, n)]
  | _ => []
  end.
Proof.
  unfold cycle_runs. rewrite trace_log, omap_app. simpl.
  destruct ev as [| | | | | | |t cmd| |]; try done. destruct t; try done.
  by destruct (num =? 0).
Qed.

#[export] Hint Rewrite cycle_runs_log : st.

Lemma attempt_tools_md n : attempt_tools (ToolMd n) = true → n = 0.
Proof. simpl. lia. Qed.

Lemma cycle_inv_frame p ts s s' :
  (∀ n, ts (ToolMd n) = true → n = 0) →
  frame ts s s' → cycle_inv p s → cycle_inv p s'.
Proof.
  intros Hts Hf [Hb Hruns]. split.
  - by rewrite (frame_bonds _ _ _ Hf).
  - rewrite (frame_cycle_runs _ _ _ Hts Hf), (frame_bonds _ _ _ Hf). done.
Qed.

Lemma only_md t n : (∀ m, t ≠ ToolMd m) → only t (ToolMd n) = true → n = 0.
Proof. intros Ht. destruct t; try done. by destruct (Ht num). Qed.

Lemma no_tool_md n : no_tool (ToolMd n) = true → n = 0.
Proof. done. Qed.

Lemma schedule_snoc p b :
  0 ≤ b → schedule p (b + 1) = schedule p b ++ option_list (cycle_of p (b + 1)).
Proof.
  intros Hb. unfold schedule. rewrite seqZ_snoc, omap_app by done. simpl.
  by destruct (cycle_of p (b + 1)).
Qed.

Section Cycles.

Context (p : params) (env : oracle).

Lemma md_cycle_run n s :
  n ≠ 0 →
  wp (md p env n) s
    (λ _ s', bonds s' = bonds s ∧
             cycle_runs (trace s') = cycle_runs (trace s) ++ [(bonds s, n)])
    (λ _ _, True).
Proof.
  intros Hn. apply Z.eqb_neq in Hn as Hn0.
  assert (Hend : ∀ s1 : state,
    bonds s1 = bonds s →
    cycle_runs (trace s1) = cycle_runs (trace s) ++ [(bonds s, n)] →
    wp (rm_glob "step_") s1
      (λ _ s', bonds s' = bonds s ∧
               cycle_runs (trace s') = cycle_runs (trace s) ++ [(bonds s, n)])
      (λ _ _, True)).
  { intros s1 Hb Hr.
    eapply wp_conseq; [apply (rm_glob_frame no_tool), frame_refl | | done].
    intros [] s' Hf. rewrite (frame_bonds _ _ _ Hf). split; [done|].
    by rewrite (frame_cycle_runs _ _ _ (λ n H, False_ind _ (Bool.diff_false_true H)) Hf). }
  unfold md. rewrite Hn0. wp_go; try done; try apply Hend; try split;
    autorewrite with st; rewrite ?Hn0, ?app_nil_r; done.
Qed.

Lemma cycle_md_runs s :
  bonds s ≠ bonds_tot p →
  wp (cycle_md p env) s
    (λ _ s', bonds s' = bonds s ∧
             cycle_runs (trace s') =
             cycle_runs (trace s) ++ option_list (cycle_of p (bonds s)))
    (λ _ _, True).
Proof.
  intros Hne. apply Z.eqb_neq in Hne as Hne0.
  unfold cycle_md, cycle_of. rewrite Hne0. wp_go; try done.
  - eapply wp_conseq; [apply (setup_md_frame no_tool), frame_refl | | done].
    intros [] s1 Hf1.
    pose proof (frame_bonds _ _ _ Hf1) as Hb1.
    pose proof (frame_cycle_runs _ _ _ no_tool_md Hf1) as Hr1.
    wp_go; try done.
    + eapply wp_conseq; [by apply md_cycle_run | | done].
      intros [] s2. cbv beta. rewrite Hb1, Hr1. done.
    + eapply wp_conseq; [by apply md_cycle_run | | done].
      intros [] s2. cbv beta. rewrite Hb1, Hr1. done.
  - split; [done|]. simpl. by rewrite app_nil_r.
Qed.

Lemma polym_loop_body_cycles s :
  cycle_inv p s → bonds s < bonds_tot p →
  wp (polym_loop_body p env) s
    (λ stop s',
       if stop then cycle_inv p s' else cycle_inv p s' ∧ bonds s < bonds s')
    (λ _ _, True).
Proof.
  intros [Hb Hruns] Hlt. unfold polym_loop_body. wp_go. fold (incr_st s).
  assert (Hr1 : cycle_runs (trace (incr_st s)) = schedule p (bonds s)).
  { unfold incr_st. autorewrite with st. by rewrite app_nil_r. }
  eapply wp_conseq; [apply (setup_step_frame attempt_tools), frame_refl | | done].
  intros [] s1 Hf1. apply wp_bind.
  eapply wp_conseq; [by apply (polym_step_frame p env attempt_tools) | | done].
  intros code s2 [[-> Hf2]|[-> (sa & Hfa & Hfb)]]; simpl.
  - apply wp_bind.
    eapply wp_conseq; [by apply (em_frame p env attempt_tools) | | done].
    intros [] s3 Hf3.
    pose proof (frame_bonds _ _ _ Hf3) as Hb3. simpl in Hb3.
    pose proof (frame_cycle_runs _ _ _ attempt_tools_md Hf3) as Hr3.
    rewrite Hr1 in Hr3. wp_go.
    + split; [lia|]. rewrite Hr3, Hb3, schedule_snoc by done.
      unfold cycle_of. replace (bonds s + 1 =? bonds_tot p) with true by lia.
      simpl. by rewrite app_nil_r.
    + eapply wp_conseq; [apply cycle_md_runs; lia | | done].
      intros [] s4 [Hb4 Hr4]. apply wp_ret. split; [|lia]. split; [lia|].
      rewrite Hr4, Hr3, Hb4, Hb3, schedule_snoc by done. done.
  - apply wp_ret.
    pose proof (frame_bonds _ _ _ Hfa) as Hba. simpl in Hba.
    pose proof (frame_cycle_runs _ _ _ attempt_tools_md Hfa) as Hra.
    pose proof (frame_bonds _ _ _ Hfb) as Hbb.
    pose proof (frame_cycle_runs _ _ _ attempt_tools_md Hfb) as Hrb.
    autorewrite with st in Hrb, Hbb. rewrite app_nil_r in Hrb.
    split; [lia|]. rewrite Hrb, Hra, Hr1, Hbb, Hba. f_equal. lia.
Qed.

(** The end-of-cycle runs of a whole run that returns are those of the
    schedule, up to the number of bonds made. *)
Lemma main_cycles top files :
  wp (main p env) (start top files) (λ _, cycle_inv p) (λ _ _, True).
Proof.
  assert (H0 : cycle_inv p (start top files)) by (split; [simpl; lia|done]).
  unfold main, polym_loop. apply wp_bind.
  eapply wp_conseq; [apply (print_header_frame p no_tool), frame_refl | | done].
  intros [] s1 Hf1.
  assert (H1 : cycle_inv p s1) by (eapply cycle_inv_frame; [|eassumption|eassumption]; first [done | apply no_tool_md | apply attempt_tools_md]).
  apply wp_bind, wp_bind.
  eapply wp_conseq;
    [apply (polym_init_frame p env (only ToolInit)); [done|apply frame_refl] | | done].
  intros [] s2 Hf2.
  assert (H2 : cycle_inv p s2) by (eapply cycle_inv_frame; [|eassumption|eassumption]; first [done | apply no_tool_md | apply attempt_tools_md]).
  apply wp_bind.
  eapply wp_conseq; [apply (setup_step_frame no_tool), frame_refl | | done].
  intros [] s3 Hf3.
  assert (H3 : cycle_inv p s3) by (eapply cycle_inv_frame; [|eassumption|eassumption]; first [done | apply no_tool_md | apply attempt_tools_md]).
  apply wp_bind.
  eapply wp_conseq; [apply (em_frame p env attempt_tools); [done|apply frame_refl] | | done].
  intros [] s4 Hf4.
  assert (H4 : cycle_inv p s4) by (eapply cycle_inv_frame; [|eassumption|eassumption]; first [done | apply no_tool_md | apply attempt_tools_md]).
  apply wp_bind, wp_gets, wp_bind.
  eapply wp_conseq;
    [apply (polym_loop_while_rule p env (cycle_inv p) (cycle_inv p) (λ _ _, True));
       [apply polym_loop_body_cycles | done | done | done] | | done].
  intros [] s5 H5. cbv beta.
  eapply wp_conseq;
    [apply (polym_final_frame p env (only ToolFinal)); [done|apply frame_refl] | | done].
  intros [] s6 Hf6.
  assert (H6 : cycle_inv p s6) by (eapply cycle_inv_frame; [|eassumption|eassumption]; first [done | apply no_tool_md | apply attempt_tools_md]).
  cbv beta.
  eapply wp_conseq; [apply (print_footer_frame p no_tool), frame_refl | | done].
  intros [] s7 Hf7. eapply cycle_inv_frame; [|eassumption|eassumption]. apply no_tool_md.
Qed.

End Cycles.

(** C4.  With [bonds_tot = 16], [bonds_cyc = 5] and [md_cyc = 3], in a run
    that returns with all 16 bonds made, LAMMPS is started for an
    end-of-cycle run exactly three times: at 5 bonds with type 1, at 10
    bonds with type 1, and at 15 bonds with type 2; never at 16. *)
Theorem cycle_policy_16_5_3 p env top files s' :
  bonds_tot p = 16 → bonds_cyc p = 5 → md_cyc p = 3 →
  main p env (start top files) = (Ok tt, s') →
  bonds s' = 16 →
  cycle_runs (trace s') = [(5, 1); (10, 1); (15, 2)].
Proof.
  intros Htot Hcyc Hmd Hrun Hb.
  pose proof (main_cycles p env top files) as H.
  eapply wp_run in H; [|exact Hrun]. destruct H as [_ ->].
  rewrite Hb. unfold schedule, cycle_of. rewrite Htot, Hcyc, Hmd. reflexivity.
Qed.


(** * The working directory: every stage entered is left again *)

Lemma resolve_one d n :
  resolve d [n] = if String.eqb n ".." then tl d else n :: d.
Proof. done. Qed.

Lemma suffix_neq_cons {A} (l : list A) x : x :: l ≠ l.
Proof. intros H. apply (f_equal length) in H. simpl in H. lia. Qed.

Lemma prefix_snoc_inv {A} (pre l : list A) x :
  pre `prefix_of` l ++ [x] → pre `prefix_of` l ∨ pre = l ++ [x].
Proof.
  intros [k Hk]. destruct k as [|y k _] using rev_ind.
  - right. by rewrite app_nil_r in Hk.
  - left. rewrite app_assoc in Hk. apply app_inj_tail in Hk as [-> _]. by exists k.
Qed.

Lemma bracketed_snoc tr e :
  bracketed tr →
  (count is_leave (tr ++ [e]) ≤ count is_enter (tr ++ [e]))%nat →
  bracketed (tr ++ [e]).
Proof. intros Hbr Hle pre [Hpre| ->]%prefix_snoc_inv; [by apply Hbr|done]. Qed.

Lemma cursor_fs top m s : cursor_inv top s → cursor_inv top (set_fs_st m s).
Proof. done. Qed.

Lemma cursor_bonds top v s : cursor_inv top s → cursor_inv top (set_bonds_st v s).
Proof. done. Qed.

Lemma cursor_emit top ev s :
  cursor_inv top s →
  (∀ r, ev ≠ EvChdir r) →
  (ev = EvSetBonds (bonds s + 1) → cwd s = top) →
  (ev = EvPrint "Finalization:" → cwd s = top) →
  cursor_inv top (log_st ev s).
Proof.
  intros (Hsuf & Hbal & Hall & Hbr) Hev Hinc Hfin.
  assert (Hl : is_leave {| e_bonds := bonds s; e_cwd := cwd s; e_ev := ev |} = false).
  { unfold is_leave. simpl. destruct ev as [| | | |[|d []]| | | | |]; try done.
    by destruct (Hev [d]). }
  assert (He : is_enter {| e_bonds := bonds s; e_cwd := cwd s; e_ev := ev |} = false).
  { unfold is_enter. simpl. destruct ev as [| | | |[|d []]| | | | |]; try done.
    by destruct (Hev [d]). }
  pose proof (suffix_length _ _ Hsuf) as Hlen.
  split; [done|]. split; [|split].
  - rewrite trace_log, !count_app. simpl. rewrite Hl, He. autorewrite with st. lia.
  - rewrite trace_log. apply Forall_app. split; [done|]. repeat constructor; simpl; try done.
    by rewrite Hl.
  - rewrite trace_log. apply bracketed_snoc; [done|].
    rewrite !count_app. simpl. rewrite Hl, He. lia.
Qed.

Lemma is_leave_chdir b c n :
  is_leave {| e_bonds := b; e_cwd := c; e_ev := EvChdir [n] |} = String.eqb n "..".
Proof. done. Qed.

Lemma is_enter_chdir b c n :
  is_enter {| e_bonds := b; e_cwd := c; e_ev := EvChdir [n] |} = negb (String.eqb n "..").
Proof. done. Qed.

Lemma cursor_enter top n s :
  String.eqb n ".." = false →
  cursor_inv top s →
  cursor_inv top (set_cwd_st (resolve (cwd s) [n]) (log_st (EvChdir [n]) s)).
Proof.
  intros Hn (Hsuf & Hbal & Hall & Hbr). rewrite resolve_one, Hn.
  pose proof (suffix_length _ _ Hsuf) as Hlen.
  split; [|split; [|split]].
  - autorewrite with st. by apply suffix_cons_r.
  - autorewrite with st. rewrite trace_log, !count_app. simpl.
    rewrite is_leave_chdir, is_enter_chdir, Hn. simpl. lia.
  - autorewrite with st. rewrite trace_log. apply Forall_app. split; [done|].
    repeat constructor; simpl; try done. by rewrite is_leave_chdir, Hn.
  - autorewrite with st. rewrite trace_log. apply bracketed_snoc; [done|].
    rewrite !count_app. simpl. rewrite is_leave_chdir, is_enter_chdir, Hn. simpl. lia.
Qed.

Lemma cursor_leave top n d s :
  cwd s = n :: d → top `suffix_of` d →
  cursor_inv top s →
  cursor_inv top (set_cwd_st (resolve (cwd s) [".."]) (log_st (EvChdir [".."]) s)).
Proof.
  intros Hcwd Hd (Hsuf & Hbal & Hall & Hbr). rewrite resolve_one, Hcwd. simpl.
  pose proof (suffix_length _ _ Hd) as Hlen.
  rewrite Hcwd in Hbal. simpl in Hbal.
  split; [|split; [|split]].
  - by autorewrite with st.
  - autorewrite with st. rewrite trace_log, !count_app. simpl.
    rewrite ?is_leave_chdir, ?is_enter_chdir. simpl. lia.
  - autorewrite with st. rewrite trace_log. apply Forall_app. split; [done|].
    repeat constructor; simpl; try done.
    intros _ Heq. rewrite Hcwd in Heq. rewrite <- Heq in Hlen. simpl in Hlen. lia.
  - autorewrite with st. rewrite trace_log. apply bracketed_snoc; [done|].
    rewrite !count_app. simpl. rewrite ?is_leave_chdir, ?is_enter_chdir. simpl. lia.
Qed.

(** The messages of the stage operations are not the announcement of
    finalization, and what they log does not touch the counter. *)
Ltac not_this_event :=
  let H := fresh in
  solve [ intros H; exfalso; revert H; simpl; clear;
          first [ discriminate
                | intros [=]; lia
                | intros [=]; discriminate
                | intros [=] ] ].

Ltac cursor_solve :=
  repeat first
    [ assumption
    | lazymatch goal with
      | |- cursor_inv _ ?s =>
          tryif is_evar s then fail
          else first
            [ apply cursor_fs
            | apply cursor_bonds
            | apply cursor_enter; [reflexivity |]
            | eapply cursor_leave; [autorewrite with st; eassumption | eassumption |]
            | apply cursor_emit; [| intros ?; discriminate | not_this_event | not_this_event ] ]
      end ].

Ltac split_post :=
  lazymatch goal with
  | |- cursor_inv _ _ ∧ _ => split
  | |- _ => idtac
  end.

Ltac cwd_norm :=
  autorewrite with st; rewrite ?resolve_one; simpl;
  repeat match goal with H : cwd _ = _ |- _ => rewrite H end; simpl.

Ltac cwd_solve :=
  lazymatch goal with
  | |- cwd _ = _ => solve [cwd_norm; done]
  | |- ∃ _, cwd _ = _ => solve [cwd_norm; eauto]
  end.

Section Cursor.

Context (p : params) (env : oracle) (top : path).

Lemma rm_glob_cursor pre c s :
  cursor_inv top s → cwd s = c →
  wp (rm_glob pre) s (λ _ s', cursor_inv top s' ∧ cwd s' = c) (λ _, cursor_inv top).
Proof.
  intros H Hc. unfold rm_glob. wp_go.
  apply (wp_for_each (λ s', cursor_inv top s' ∧ cwd s' = c)); [|done].
  intros n s1 [H1 Hc1]. wp_go; split_post; cursor_solve.
Qed.

Lemma setup_step_cursor s :
  cursor_inv top s →
  wp setup_step s
    (λ _ s', cursor_inv top s' ∧ ∃ n, cwd s' = n :: cwd s) (λ _, cursor_inv top).
Proof.
  intros H. unfold setup_step. wp_go; split_post; cursor_solve; try cwd_solve.
Qed.

Lemma setup_md_cursor num s :
  cursor_inv top s →
  wp (setup_md num) s
    (λ _ s', cursor_inv top s' ∧ ∃ n, cwd s' = n :: cwd s) (λ _, cursor_inv top).
Proof.
  intros H. unfold setup_md. wp_go; split_post; cursor_solve; try cwd_solve.
Qed.

Lemma em_cursor n d s :
  cursor_inv top s → cwd s = n :: d → top `suffix_of` d →
  wp (em p env) s (λ _ s', cursor_inv top s' ∧ cwd s' = d) (λ _, cursor_inv top).
Proof.
  intros H Hcwd Hd. unfold em. wp_go; split_post; cursor_solve; try cwd_solve.
  all: eapply wp_conseq; [apply (rm_glob_cursor "step_" d) | done | done];
    cursor_solve; cwd_solve.
Qed.

Lemma md_cursor num n d s :
  cursor_inv top s → cwd s = n :: d → top `suffix_of` d →
  wp (md p env num) s (λ _ s', cursor_inv top s' ∧ cwd s' = d) (λ _, cursor_inv top).
Proof.
  intros H Hcwd Hd. unfold md. wp_go; split_post; cursor_solve; try cwd_solve.
  all: eapply wp_conseq; [eapply (rm_glob_cursor _ d) | done | done];
    cursor_solve; cwd_solve.
Qed.

Lemma polym_step_while_cursor fuel : ∀ a n d s,
  cursor_inv top s → cwd s = n :: d → top `suffix_of` d →
  wp (polym_step_while p env fuel a) s
    (λ code s', cursor_inv top s' ∧
                ((code = 0 ∧ cwd s' = n :: d) ∨ (code = 1 ∧ cwd s' = d)))
    (λ _, cursor_inv top).
Proof.
  induction fuel as [|fuel IH]; intros a n d s H Hcwd Hd; [done|].
  simpl. apply wp_bind, wp_call_any; [intros code | intros code m]; cbv beta.
  all: destruct (code =? 0) eqn:H0; [|destruct (code =? 3) eqn:H3];
    [ wp_go; split_post; cursor_solve; left; split; [done|cwd_solve]
    | destruct (a >? md_max p) eqn:Ha
    | wp_go; cursor_solve ].
  all: try (wp_go;
    [ eapply wp_conseq; [eapply (rm_glob_cursor _ d) | |]; cbv beta;
      [ cursor_solve | cwd_solve
      | intros [] s' [Hs' Hc']; apply wp_ret; split; [done|by right]
      | done ]
    | split; [cursor_solve|right; split; [done|cwd_solve]] ]).
  all: apply wp_bind;
    (eapply wp_conseq; [apply setup_md_cursor; cursor_solve | | done]);
    intros [] s1 [H1 [m1 Hc1]]; autorewrite with st in Hc1; rewrite Hcwd in Hc1;
    apply wp_bind;
    (eapply wp_conseq;
       [apply (md_cursor 0 m1 (n :: d)); [done|done|by apply suffix_cons_r] | | done]);
    intros [] s2 [H2 Hc2]; by apply IH.
Qed.

Lemma polym_step_cursor n d s :
  cursor_inv top s → cwd s = n :: d → top `suffix_of` d →
  wp (polym_step p env) s
    (λ code s', cursor_inv top s' ∧
                ((code = 0 ∧ cwd s' = n :: d) ∨ (code = 1 ∧ cwd s' = d)))
    (λ _, cursor_inv top).
Proof. apply polym_step_while_cursor. Qed.

Lemma polym_init_cursor s :
  cursor_inv top s →
  wp (polym_init p env) s (λ _ s', cursor_inv top s' ∧ cwd s' = cwd s) (λ _, cursor_inv top).
Proof.
  intros H. unfold polym_init. wp_go; split_post; cursor_solve; try cwd_solve.
Qed.

Lemma polym_final_cursor s :
  cursor_inv top s → cwd s = top →
  wp (polym_final p env) s (λ _ s', cursor_inv top s' ∧ cwd s' = cwd s) (λ _, cursor_inv top).
Proof.
  intros H Hc. unfold polym_final. wp_go; split_post.
  all: try cwd_solve.
  all: repeat first
    [ assumption | apply cursor_fs
    | apply cursor_emit;
        [| intros ?; discriminate | not_this_event
         | first [not_this_event | intros _; by autorewrite with st] ] ].
Qed.

Lemma print_header_cursor s :
  cursor_inv top s →
  wp (print_header p) s (λ _ s', cursor_inv top s' ∧ cwd s' = cwd s) (λ _, cursor_inv top).
Proof.
  intros H. unfold print_header, nl. wp_go; split_post; cursor_solve; try cwd_solve.
Qed.

Lemma print_footer_cursor s :
  cursor_inv top s →
  wp (print_footer p) s (λ _ s', cursor_inv top s' ∧ cwd s' = cwd s) (λ _, cursor_inv top).
Proof.
  intros H. unfold print_footer, nl. wp_go; split_post; cursor_solve; try cwd_solve.
Qed.

Lemma cycle_md_cursor s :
  cursor_inv top s → cwd s = top →
  wp (cycle_md p env) s (λ _ s', cursor_inv top s' ∧ cwd s' = top) (λ _, cursor_inv top).
Proof.
  intros H Hc. unfold cycle_md. wp_go; split_post; cursor_solve.
  eapply wp_conseq; [by apply setup_md_cursor | | done].
  intros [] s1 [H1 [n Hc1]]. rewrite Hc in Hc1.
  wp_go; cursor_solve; by eapply md_cursor.
Qed.

Lemma polym_loop_body_cursor s :
  cursor_inv top s → cwd s = top →
  wp (polym_loop_body p env) s
    (λ _ s', cursor_inv top s' ∧ cwd s' = top) (λ _, cursor_inv top).
Proof.
  intros H Hc. unfold polym_loop_body. wp_go.
  assert (H1 : cursor_inv top (set_bonds_st (bonds s + 1) (log_st (EvSetBonds (bonds s + 1)) s))).
  { apply cursor_bonds, cursor_emit; [done|intros ?; discriminate|done|not_this_event]. }
  eapply wp_conseq; [by apply setup_step_cursor | | done].
  intros [] s2 [H2 [n Hc2]]. autorewrite with st in Hc2. rewrite Hc in Hc2.
  apply wp_bind.
  eapply wp_conseq; [by apply (polym_step_cursor n top) | | done].
  intros code s3 [H3 [[-> Hc3]|[-> Hc3]]]; simpl; [|by apply wp_ret].
  apply wp_bind.
  eapply wp_conseq; [by apply (em_cursor n top) | | done].
  intros [] s4 [H4 Hc4]. wp_go; [done|].
  eapply wp_conseq; [by apply cycle_md_cursor | | done].
  intros [] s5 [H5 Hc5]. by apply wp_ret.
Qed.

Lemma polym_loop_while_cursor fuel s :
  cursor_inv top s → cwd s = top →
  (Z.to_nat (bonds_tot p - bonds s) ≤ fuel)%nat →
  wp (polym_loop_while p env fuel) s
    (λ _ s', cursor_inv top s' ∧ cwd s' = top) (λ _, cursor_inv top).
Proof.
  intros H Hc Hfuel.
  apply (polym_loop_while_rule p env (λ s, cursor_inv top s ∧ cwd s = top));
    [|done|done|done].
  clear. intros s [H Hc] Hlt.
  pose proof (polym_loop_body_cursor s H Hc) as H1.
  pose proof (polym_loop_body_frame p env s) as H2.
  unfold wp in *. destruct (polym_loop_body p env s) as [[[]|x] s']; try done.
  destruct H2 as [Hf _]. split; [done|]. rewrite (frame_bonds _ _ _ Hf). simpl. lia.
Qed.

Lemma main_cursor files :
  wp (main p env) (start top files)
    (λ _ s', cursor_inv top s' ∧ cwd s' = top) (λ _, cursor_inv top).
Proof.
  assert (H0 : cursor_inv top (start top files)).
  { split; [done|]. split; [done|]. split; [constructor|].
    intros pre Hpre. apply prefix_nil_inv in Hpre as ->. done. }
  unfold main, polym_loop. apply wp_bind.
  eapply wp_conseq; [by apply print_header_cursor | | done].
  intros [] s1 [H1 Hc1]. simpl in Hc1. apply wp_bind, wp_bind.
  eapply wp_conseq; [by apply polym_init_cursor | | done].
  intros [] s2 [H2 Hc2]. rewrite Hc1 in Hc2. apply wp_bind.
  eapply wp_conseq; [by apply setup_step_cursor | | done].
  intros [] s3 [H3 [n Hc3]]. rewrite Hc2 in Hc3. apply wp_bind.
  eapply wp_conseq; [by apply (em_cursor n top) | | done].
  intros [] s4 [H4 Hc4]. apply wp_bind, wp_gets, wp_bind.
  eapply wp_conseq; [by apply polym_loop_while_cursor | | done].
  intros [] s5 [H5 Hc5]. cbv beta.
  eapply wp_conseq; [by apply polym_final_cursor | | done].
  intros [] s6 [H6 Hc6]. rewrite Hc5 in Hc6. cbv beta.
  eapply wp_conseq; [by apply print_footer_cursor | | done].
  intros [] s7 [H7 Hc7]. by rewrite Hc6 in Hc7.
Qed.

End Cursor.

(** C3.  In every run the working directory stays in the tree below the
    run directory; at no point have more stage directories been left than
    entered, and a step back to the parent always starts inside a stage
    directory.  The counter is raised (the top of a turn of the main
    loop) and finalization is announced in the run directory itself.  A
    run that returns, whether the loop ended by completion or by
    exhaustion, has left as many stage directories as it entered and ends
    in the run directory. *)
Theorem stage_enter_leave_paired p env top files r s' :
  main p env (start top files) = (r, s') →
  (∀ e, e ∈ trace s' → top `suffix_of` e_cwd e) ∧
  (∀ e, e ∈ trace s' → is_leave e = true → e_cwd e ≠ top) ∧
  (∀ pre, pre `prefix_of` trace s' →
     (count is_leave pre ≤ count is_enter pre)%nat) ∧
  (∀ e, e ∈ trace s' → e_ev e = EvSetBonds (e_bonds e + 1) → e_cwd e = top) ∧
  (∀ e, e ∈ trace s' → e_ev e = EvPrint "Finalization:" → e_cwd e = top) ∧
  (r = Ok tt → cwd s' = top ∧ count is_enter (trace s') = count is_leave (trace s')).
Proof.
  intros Hrun. pose proof (main_cursor p env top files) as H.
  eapply wp_run in H; [|exact Hrun].
  assert (Hinv : cursor_inv top s') by (destruct r; [by destruct H|done]).
  destruct Hinv as (Hsuf & Hbal & Hall & Hbr). rewrite Forall_forall in Hall.
  split_and!; try (intros e He; by apply Hall); [done|].
  intros ->. destruct H as [_ Hc]. split; [done|]. rewrite Hc in Hbal. lia.
Qed.

(** * Finalization *)

Lemma wp_and {A} (m : M A) s (Q1 Q2 : A → state → Prop) (E1 E2 : failure → state → Prop) :
  wp m s Q1 E1 → wp m s Q2 E2 →
  wp m s (λ a s', Q1 a s' ∧ Q2 a s') (λ x s', E1 x s' ∧ E2 x s').
Proof. unfold wp. by destruct (m s) as [[a|x] s']. Qed.

Lemma rolled_back_count ts t s s' :
  ts t = false → rolled_back ts s s' →
  count (is_call t) (trace s') = count (is_call t) (trace s).
Proof.
  intros Ht (s1 & Hf1 & Hf2).
  rewrite (frame_count_call _ _ _ _ Ht Hf2), trace_set_bonds, trace_log, count_app.
  rewrite (frame_count_call _ _ _ _ Ht Hf1). simpl. lia.
Qed.

Section Finalization.

Context (p : params) (env : oracle).

(** What [polym_final] does when it returns. *)
Lemma polym_final_ok s s' :
  polym_final p env s = (Ok tt, s') →
  cwd s' = cwd s ∧ bonds s' = bonds s ∧
  is_file (fs s' !! ("final.lmps" :: cwd s)) = true ∧
  fs s' !! ("temp.lmps" :: cwd s) = None ∧
  count (is_call ToolFinal) (trace s') = S (count (is_call ToolFinal) (trace s)).
Proof.
  unfold polym_final, bind, print, emit, call, isfile, remove, err_exit, ret, raise, sys_exit.
  destruct (script_final p) as [script|]; simpl.
  - destruct (env ToolFinal _ _) as [code w] eqn:Henv; simpl.
    repeat (case_match; simpl in *; simplify_eq); intros; simplify_eq;
      autorewrite with st in *; simpl.
    all: split_and!; try done.
    all: try apply lookup_delete_eq.
    all: try (rewrite lookup_delete_ne by (intros [=]);
              match goal with H : _ || _ = false |- _ =>
                apply orb_false_elim in H as [_ H]; by apply negb_false_iff in H
              end).
    all: rewrite ?trace_log, ?count_app; simpl; lia.
  - unfold copy. repeat (case_match; simpl in *; simplify_eq); intros; simplify_eq.
Qed.

Lemma polym_loop_while_no_final fuel s :
  (Z.to_nat (bonds_tot p - bonds s) ≤ fuel)%nat →
  wp (polym_loop_while p env fuel) s
    (λ _ s', count (is_call ToolFinal) (trace s') = count (is_call ToolFinal) (trace s))
    (λ _ _, True).
Proof.
  intros Hfuel.
  apply (polym_loop_while_rule p env
    (λ s', count (is_call ToolFinal) (trace s') = count (is_call ToolFinal) (trace s)));
    [|done|done|done].
  clear Hfuel. intros s1 H1 Hlt.
  assert (H2 : count (is_call ToolFinal) (trace (incr_st s1)) =
               count (is_call ToolFinal) (trace s)).
  { unfold incr_st. by rewrite trace_set_bonds, trace_log, count_app, H1, Nat.add_0_r. }
  eapply wp_conseq; [apply polym_loop_body_frame | | done].
  intros [] s'.
  - intros [[Hf _]|Hrb].
    + by rewrite (frame_count_call _ _ _ ToolFinal eq_refl Hf).
    + by rewrite (rolled_back_count _ ToolFinal _ _ eq_refl Hrb).
  - intros [Hf _]. split.
    + by rewrite (frame_count_call _ _ _ ToolFinal eq_refl Hf).
    + rewrite (frame_bonds _ _ _ Hf). simpl. lia.
Qed.

(** A run is what comes before finalization, then finalization, then
    the summary. *)
Lemma main_split s0 r s' :
  main p env s0 = (r, s') →
  match before_final p env s0 with
  | (Ok _, s5) =>
      match polym_final p env s5 with
      | (Ok _, s6) => print_footer p s6 = (r, s')
      | (Fail x, s6) => r = Fail x ∧ s' = s6
      end
  | (Fail x, s5) => r = Fail x ∧ s' = s5
  end.
Proof.
  unfold main, polym_loop, before_final, bind, gets.
  destruct (print_header p s0) as [[[]|x1] s1]; [|by intros [= <- <-]].
  destruct (polym_init p env s1) as [[[]|x2] s2]; [|by intros [= <- <-]].
  destruct (setup_step s2) as [[[]|x3] s3]; [|by intros [= <- <-]].
  destruct (em p env s3) as [[[]|x4] s4]; [|by intros [= <- <-]].
  destruct (polym_loop_while p env _ s4) as [[[]|x5] s5]; [|by intros [= <- <-]].
  destruct (polym_final p env s5) as [[[]|x6] s6]; [done|by intros [= <- <-]].
Qed.

Lemma print_footer_ok s r s' :
  print_footer p s = (r, s') →
  fs s' = fs s ∧ cwd s' = cwd s ∧ bonds s' = bonds s ∧
  count (is_call ToolFinal) (trace s') = count (is_call ToolFinal) (trace s) ∧
  (r = Ok tt ↔
     bonds_tot p ≠ 0 ∧ float_ok (bonds s) = true ∧ float_ok (bonds_tot p) = true) ∧
  r ≠ Fail OutOfFuel.
Proof.
  unfold print_footer, bind, gets, print, emit, raise. autorewrite with st.
  destruct (float_ok (bonds s)) eqn:Hfb; simpl;
    [destruct (float_ok (bonds_tot p)) eqn:Hft; simpl;
     [destruct (bonds_tot p =? 0) eqn:Htot|]|].
  all: intros [= <- <-]; autorewrite with st; rewrite ?trace_log, ?count_app; simpl.
  all: split_and!; try done; try lia.
  all: split; [intros; first [done | split_and!; first [lia | done]] |
               intros (? & ? & ?); first [lia | done]].
Qed.

Lemma before_final_cursor top files :
  wp (before_final p env) (start top files)
    (λ _ s', cursor_inv top s' ∧ cwd s' = top) (λ _, cursor_inv top).
Proof.
  assert (H0 : cursor_inv top (start top files)).
  { split; [done|]. split; [done|]. split; [constructor|].
    intros pre Hpre. apply prefix_nil_inv in Hpre as ->. done. }
  unfold before_final. apply wp_bind.
  eapply wp_conseq; [by apply print_header_cursor | | done].
  intros [] s1 [H1 Hc1]. simpl in Hc1. apply wp_bind.
  eapply wp_conseq; [by apply polym_init_cursor | | done].
  intros [] s2 [H2 Hc2]. rewrite Hc1 in Hc2. apply wp_bind.
  eapply wp_conseq; [by apply setup_step_cursor | | done].
  intros [] s3 [H3 [n Hc3]]. rewrite Hc2 in Hc3. apply wp_bind.
  eapply wp_conseq; [by apply (em_cursor p env top n top) | | done].
  intros [] s4 [H4 Hc4]. apply wp_bind, wp_gets.
  by apply polym_loop_while_cursor.
Qed.

Lemma before_final_no_final s :
  wp (before_final p env) s
    (λ _ s', count (is_call ToolFinal) (trace s') = count (is_call ToolFinal) (trace s))
    (λ _ _, True).
Proof.
  unfold before_final. apply wp_bind.
  eapply wp_conseq; [apply (print_header_frame p no_tool), frame_refl | | done].
  intros [] s1 Hf1. apply wp_bind.
  eapply wp_conseq;
    [apply (polym_init_frame p env (only ToolInit)); [done|apply frame_refl] | | done].
  intros [] s2 Hf2. apply wp_bind.
  eapply wp_conseq; [apply (setup_step_frame no_tool), frame_refl | | done].
  intros [] s3 Hf3. apply wp_bind.
  eapply wp_conseq; [apply (em_frame p env (only ToolEm)); [done|apply frame_refl] | | done].
  intros [] s4 Hf4. apply wp_bind, wp_gets.
  eapply wp_conseq; [by apply polym_loop_while_no_final | | done].
  intros [] s5 ->.
  rewrite (frame_count_call _ _ _ ToolFinal eq_refl Hf4).
  rewrite (frame_count_call _ _ _ ToolFinal eq_refl Hf3).
  rewrite (frame_count_call _ _ _ ToolFinal eq_refl Hf2).
  by rewrite (frame_count_call _ _ _ ToolFinal eq_refl Hf1).
Qed.

End Finalization.

(** C7.  A run that meets no fatal condition, whether its loop ended
    with all bonds made or by exhaustion, has called the finalization
    tool exactly once, ends with [final.lmps] as a file of the run
    directory and without [temp.lmps], and its exit status is 0. *)
Theorem finalization_runs_once p env top files r s' :
  main p env (start top files) = (r, s') →
  r = Ok tt →
  count (is_call ToolFinal) (trace s') = 1%nat ∧
  is_file (fs s' !! ("final.lmps" :: top)) = true ∧
  fs s' !! ("temp.lmps" :: top) = None ∧
  exit_status r = Some 0.
Proof.
  intros Hrun ->. apply main_split in Hrun.
  pose proof (before_final_cursor p env top files) as Hcur.
  pose proof (before_final_no_final p env (start top files)) as Hcount.
  unfold wp in Hcur, Hcount.
  destruct (before_final p env (start top files)) as [[[]|x5] s5]; [|by destruct Hrun].
  destruct Hcur as [_ Hc5].
  destruct (polym_final p env s5) as [[[]|x6] s6] eqn:Hfinal; [|by destruct Hrun].
  apply polym_final_ok in Hfinal as (Hc6 & _ & Hfile & Htemp & Hn6).
  apply print_footer_ok in Hrun as (Hfs & _ & _ & Hn7 & _).
  rewrite Hfs, Hn7, Hn6, Hcount. rewrite Hc5 in Hfile, Htemp. done.
Qed.

(** * Exhaustion: the attempt is rolled back and the run finishes *)

Lemma rolled_back_bonds ts s s' : rolled_back ts s s' → bonds s' = bonds s - 1.
Proof.
  intros (s1 & Hf1 & Hf2). rewrite (frame_bonds _ _ _ Hf2), bonds_set_bonds.
  by rewrite (frame_bonds _ _ _ Hf1).
Qed.

Section Exhaustion.

Context (p : params) (env : oracle).

Lemma attempt_bond_frame s :
  wp (attempt_bond p env) s
    (λ code s',
       (code = 0 ∧ frame loop_tools (incr_st s) s') ∨
       (code = 1 ∧ rolled_back loop_tools (incr_st s) s'))
    (λ _ _, True).
Proof.
  unfold attempt_bond. wp_go. fold (incr_st s).
  eapply wp_conseq; [apply (setup_step_frame loop_tools), frame_refl | | done].
  intros [] s1 Hf1.
  eapply wp_conseq; [by apply (polym_step_frame p env loop_tools) | | done].
  done.
Qed.

(** The turn of the loop in which [polym_step] returns 1 leaves the
    loop. *)
Lemma polym_loop_body_exhausted s s1 :
  attempt_bond p env s = (Ok 1, s1) → polym_loop_body p env s = (Ok true, s1).
Proof.
  unfold attempt_bond, polym_loop_body, bind, gets, set_bonds. simpl.
  destruct (setup_step _) as [[[]|x] s2]; [|done].
  by intros ->.
Qed.

End Exhaustion.

(** * Stage directories: collisions and staged input *)

Lemma resolve_step_dir d b : resolve d [step_dir b] = step_dir b :: d.
Proof. done. Qed.

Lemma resolve_md_dir d b num : resolve d [md_dir b num] = md_dir b num :: d.
Proof. unfold md_dir. by destruct (num =? 0). Qed.

Lemma fs_wf_parent m n d : fs_wf m → is_Some (m !! (n :: d)) → m !! d = Some Dir.
Proof. intros Hwf [x Hx]. exact (Hwf _ _ Hx). Qed.

Lemma setup_step_collision s :
  is_Some (fs s !! (step_dir (bonds s) :: cwd s)) →
  setup_step s =
    (Fail (SysExit 1),
     log_st (EvPrint (cat ["Error: Directory '"; step_dir (bonds s); "' already exists."]))
       (log_st (EvPrint (cat ["Step "; fmt_d (bonds s); ":"])) s)).
Proof.
  intros Hex. unfold setup_step, bind, gets, print, emit, path_exists.
  autorewrite with st. fold (step_dir (bonds s)). rewrite resolve_step_dir.
  by rewrite (bool_decide_eq_true_2 _ Hex).
Qed.

Lemma setup_md_collision num s :
  is_Some (fs s !! (md_dir (bonds s) num :: cwd s)) →
  setup_md num s =
    (Fail (SysExit 1),
     log_st (EvPrint (cat ["Error: Directory '"; md_dir (bonds s) num; "' already exists."]))
       s).
Proof.
  intros Hex. unfold setup_md, bind, gets, path_exists.
  fold (md_dir (bonds s) num). rewrite resolve_md_dir.
  by rewrite (bool_decide_eq_true_2 _ Hex).
Qed.

(** C8.  When the directory that [setup_step] or [setup_md] is about to
    make exists already, as a directory or as a file, the error message
    naming it is printed and the process exits with status 1; nothing is
    made, nothing is copied, and the working directory stays where it
    was. *)
Theorem stage_collision_is_fatal s :
  (is_Some (fs s !! (step_dir (bonds s) :: cwd s)) →
   setup_step s =
     (Fail (SysExit 1),
      log_st (EvPrint (cat ["Error: Directory '"; step_dir (bonds s); "' already exists."]))
        (log_st (EvPrint (cat ["Step "; fmt_d (bonds s); ":"])) s))) ∧
  (∀ num, is_Some (fs s !! (md_dir (bonds s) num :: cwd s)) →
   setup_md num s =
     (Fail (SysExit 1),
      log_st (EvPrint (cat ["Error: Directory '"; md_dir (bonds s) num; "' already exists."]))
        s)).
Proof.
  split; [apply setup_step_collision | intros num; apply setup_md_collision].
Qed.

(** The other way round: a stage directory is entered only when it did
    not exist. *)
Lemma setup_step_fresh s s' :
  setup_step s = (Ok tt, s') → fs s !! (step_dir (bonds s) :: cwd s) = None.
Proof.
  intros Hrun. destruct (fs s !! (step_dir (bonds s) :: cwd s)) eqn:Hex; [|done].
  rewrite setup_step_collision in Hrun; [done|]. by rewrite Hex.
Qed.


(** The names of stage directories. *)
Lemma prefix_append a b : String.prefix a (String.append a b) = true.
Proof.
  induction a as [|c a IH]; simpl; [by destruct b|].
  by destruct (Ascii.ascii_dec c c).
Qed.

Lemma step_dir_prefix b : String.prefix "step_" (step_dir b) = true.
Proof. apply prefix_append. Qed.

Lemma md_dir_prefix b num :
  String.prefix (if num =? 0 then "step_" else "md_") (md_dir b num) = true.
Proof. unfold md_dir. destruct (num =? 0); apply prefix_append. Qed.


(** C10.  [setup_step] copies [temp.lmps] of the directory it starts in
    into the step directory it makes, under the name [data.lmps] when
    [bonds] is 0 and under the name [init.lmps] otherwise; the other of the
    two names is not there afterwards. *)
Theorem setup_step_staged_name s s' :
  fs_wf (fs s) →
  setup_step s = (Ok tt, s') →
  let d := step_dir (bonds s) :: cwd s in
  let name := if bonds s =? 0 then "data.lmps" else "init.lmps" in
  let other := if bonds s =? 0 then "init.lmps" else "data.lmps" in
  ∃ c, fs s !! ("temp.lmps" :: cwd s) = Some (File c) ∧
       cwd s' = d ∧
       fs s' = <[name :: d := File c]> (<[d := Dir]> (fs s)) ∧
       fs s' !! (other :: d) = None.
Proof.
  intros Hwf Hrun d name other.
  pose proof (setup_step_fresh _ _ Hrun) as Hfresh. fold d in Hfresh.
  assert (Hsub : ∀ n, fs s !! (n :: d) = None).
  { intros n. destruct (fs s !! (n :: d)) eqn:Hn; [|done].
    rewrite (fs_wf_parent (fs s) n d) in Hfresh; [done|done|by rewrite Hn]. }
  revert Hrun. unfold setup_step, bind, gets, print, emit, path_exists, makedirs, chdir.
  autorewrite with st. fold (step_dir (bonds s)). rewrite resolve_step_dir. fold d.
  rewrite Hfresh. simpl.
  subst name other.
  assert (Hne : ∀ n, d ≠ n :: d) by (intros n H; by apply (suffix_neq_cons d n)).
  assert (Hd : d ≠ "temp.lmps" :: cwd s) by (subst d; intros [=]).

  destruct (bonds s =? 0); unfold copy; autorewrite with st.
  - change (resolve (step_dir (bonds s) :: cwd s) [".."; "temp.lmps"])
      with ("temp.lmps" :: cwd s).
    change (resolve (step_dir (bonds s) :: cwd s) ["data.lmps"]) with ("data.lmps" :: d).
    fold d. rewrite lookup_insert_ne by done.
    destruct (fs s !! ("temp.lmps" :: cwd s)) as [[c|]|]; try done.
    assert (H1 : <[d:=Dir]> (fs s) !! ("data.lmps" :: d) = None)
      by (rewrite lookup_insert_ne by done; apply Hsub).
    rewrite !H1.
    intros [= <-]. exists c. autorewrite with st. split_and!; try done.
    rewrite !lookup_insert_ne; [apply Hsub|done|by intros [=]].
  - change (resolve (step_dir (bonds s) :: cwd s) [".."; "temp.lmps"])
      with ("temp.lmps" :: cwd s).
    change (resolve (step_dir (bonds s) :: cwd s) ["init.lmps"]) with ("init.lmps" :: d).
    fold d. rewrite lookup_insert_ne by done.
    destruct (fs s !! ("temp.lmps" :: cwd s)) as [[c|]|]; try done.
    assert (H1 : <[d:=Dir]> (fs s) !! ("init.lmps" :: d) = None)
      by (rewrite lookup_insert_ne by done; apply Hsub).
    rewrite !H1.
    intros [= <-]. exists c. autorewrite with st. split_and!; try done.
    rewrite !lookup_insert_ne; [apply Hsub|done|by intros [=]].
Qed.

(** * What becomes of the stage directories *)

(** ** Kept: nothing is removed when [keep] is not 0 *)

Lemma keeps_dirs_refl m : keeps_dirs m m.
Proof. by intros d Hd. Qed.

Lemma keeps_dirs_insert_file m k c :
  m !! k ≠ Some Dir → keeps_dirs m (<[k := File c]> m).
Proof.
  intros Hk d Hd. destruct (decide (k = d)) as [->|Hne]; [done|].
  by rewrite lookup_insert_ne.
Qed.

Lemma keeps_dirs_write_out m k c : keeps_dirs m (write_out k c m).
Proof.
  unfold write_out. destruct (m !! k) as [[]|] eqn:Hk;
    first [apply keeps_dirs_refl | apply keeps_dirs_insert_file; by rewrite Hk].
Qed.

Lemma keeps_dirs_delete_file m k c :
  m !! k = Some (File c) → keeps_dirs m (delete k m).
Proof.
  intros Hk d Hd. destruct (decide (k = d)) as [->|Hne]; [congruence|].
  by rewrite lookup_delete_ne.
Qed.

Lemma wp_copy_keeps src dst s (Q : unit → state → Prop) E :
  (∀ m' a b, keeps_dirs (fs s) m' → Q tt (set_fs_st m' (log_st (EvCopy a b) s))) →
  (∀ e, E (Raise e) s) →
  wp (copy src dst) s Q E.
Proof.
  intros HQ HE. unfold wp, copy.
  repeat case_match; simplify_eq; first [apply HE | apply HQ];
    apply keeps_dirs_insert_file; congruence.
Qed.

Lemma wp_remove_keeps r s (Q : unit → state → Prop) E :
  (∀ m' a, keeps_dirs (fs s) m' → Q tt (set_fs_st m' (log_st (EvRemove a) s))) →
  (∀ e, E (Raise e) s) →
  wp (remove r) s Q E.
Proof.
  intros HQ HE. unfold wp, remove.
  repeat case_match; simplify_eq; first [apply HE | apply HQ].
  by eapply keeps_dirs_delete_file.
Qed.

Lemma wp_open_w_keeps r s (Q : unit → state → Prop) E :
  (∀ m' a, keeps_dirs (fs s) m' → Q tt (set_fs_st m' (log_st (EvOpen a) s))) →
  (∀ e, E (Raise e) s) →
  wp (open_w r) s Q E.
Proof.
  intros HQ HE. unfold wp, open_w.
  repeat case_match; simplify_eq; first [apply HE | apply HQ];
    apply keeps_dirs_insert_file; congruence.
Qed.

Lemma wp_call_keeps env t cmd out s (Q : Z → state → Prop) E :
  (∀ code m', keeps_dirs (fs s) m' → Q code (set_fs_st m' (log_st (EvCall t cmd) s))) →
  wp (call env t cmd out) s Q E.
Proof.
  intros HQ. unfold wp, call. destruct (env t cmd s) as [code [c|]].
  - apply HQ, keeps_dirs_write_out.
  - specialize (HQ code (fs s) (keeps_dirs_refl _)). by destruct s.
Qed.

Ltac wp_step_k :=
  first
    [ lazymatch goal with
      | |- wp (copy _ _) _ _ _ => apply wp_copy_keeps; [intros ? ? ? ? | intros ?]
      | |- wp (remove _) _ _ _ => apply wp_remove_keeps; [intros ? ? ? | intros ?]
      | |- wp (open_w _) _ _ _ => apply wp_open_w_keeps; [intros ? ? ? | intros ?]
      | |- wp (call _ _ _ _) _ _ _ => apply wp_call_keeps; intros ? ? ?
      end; cbv beta zeta
    | lazymatch goal with
      | |- wp (rmtree _) _ _ _ => fail
      | |- _ => wp_step
      end ].

Lemma mkdirs_log ev s :
  mkdirs (trace (log_st ev s)) =
  mkdirs (trace s) ++ match ev with EvMkdir d => [d] | _ => [] end.
Proof. unfold mkdirs. rewrite trace_log, omap_app. simpl. by destruct ev. Qed.

Lemma kept_log ev s :
  (∀ d, ev ≠ EvMkdir d) → dirs_kept s → dirs_kept (log_st ev s).
Proof.
  intros Hev H d. rewrite mkdirs_log, fs_log.
  destruct ev; try (rewrite app_nil_r; apply H). by destruct (Hev p).
Qed.

Lemma kept_fs m' s : keeps_dirs (fs s) m' → dirs_kept s → dirs_kept (set_fs_st m' s).
Proof. intros Hm H d Hd. apply Hm, H, Hd. Qed.

Lemma kept_cwd c s : dirs_kept s → dirs_kept (set_cwd_st c s).
Proof. done. Qed.

Lemma kept_bonds v s : dirs_kept s → dirs_kept (set_bonds_st v s).
Proof. done. Qed.

Lemma kept_mkdir d s :
  dirs_kept s → dirs_kept (set_fs_st (<[d := Dir]> (fs s)) (log_st (EvMkdir d) s)).
Proof.
  intros H d'. rewrite trace_set_fs, mkdirs_log, fs_set_fs.
  intros [Hd' | ->%list_elem_of_singleton]%elem_of_app; [|apply lookup_insert_eq].
  destruct (decide (d = d')) as [->|Hne]; [apply lookup_insert_eq|].
  rewrite lookup_insert_ne by done. by apply H.
Qed.

Ltac kept_solve :=
  repeat first
    [ assumption
    | lazymatch goal with
      | |- dirs_kept ?s =>
          tryif is_evar s then fail
          else first
            [ apply kept_mkdir
            | apply kept_fs; [assumption |]
            | apply kept_cwd
            | apply kept_bonds
            | apply kept_log; [intros ?; discriminate |] ]
      end ].

Section Kept.

Context (p : params) (env : oracle).
Hypothesis Hkeep : (keep p =? 0) = false.

Lemma setup_step_kept s :
  dirs_kept s → wp setup_step s (λ _, dirs_kept) (λ _, dirs_kept).
Proof. intros H. unfold setup_step. repeat wp_step_k; kept_solve. Qed.

Lemma setup_md_kept num s :
  dirs_kept s → wp (setup_md num) s (λ _, dirs_kept) (λ _, dirs_kept).
Proof. intros H. unfold setup_md. repeat wp_step_k; kept_solve. Qed.

Lemma em_kept s :
  dirs_kept s → wp (em p env) s (λ _, dirs_kept) (λ _, dirs_kept).
Proof. intros H. unfold em. rewrite Hkeep. repeat wp_step_k; kept_solve. Qed.

Lemma md_kept num s :
  dirs_kept s → wp (md p env num) s (λ _, dirs_kept) (λ _, dirs_kept).
Proof. intros H. unfold md. rewrite Hkeep. repeat wp_step_k; kept_solve. Qed.

Lemma polym_step_while_kept fuel : ∀ a s,
  dirs_kept s → wp (polym_step_while p env fuel a) s (λ _, dirs_kept) (λ _, dirs_kept).
Proof.
  induction fuel as [|fuel IH]; intros a s H; [done|].
  simpl. rewrite Hkeep. repeat wp_step_k; kept_solve.
  eapply wp_conseq; [apply setup_md_kept; kept_solve | | done].
  intros [] s1 H1. apply wp_bind.
  eapply wp_conseq; [by apply md_kept | | done].
  intros [] s2 H2. by apply IH.
Qed.

Lemma polym_init_kept s :
  dirs_kept s → wp (polym_init p env) s (λ _, dirs_kept) (λ _, dirs_kept).
Proof. intros H. unfold polym_init. repeat wp_step_k; kept_solve. Qed.

Lemma polym_final_kept s :
  dirs_kept s → wp (polym_final p env) s (λ _, dirs_kept) (λ _, dirs_kept).
Proof. intros H. unfold polym_final. repeat wp_step_k; kept_solve. Qed.

Lemma cycle_md_kept s :
  dirs_kept s → wp (cycle_md p env) s (λ _, dirs_kept) (λ _, dirs_kept).
Proof.
  intros H. unfold cycle_md. repeat wp_step_k; kept_solve.
  eapply wp_conseq; [by apply setup_md_kept | | done].
  intros [] s1 H1. repeat wp_step_k; kept_solve; by apply md_kept.
Qed.

Lemma polym_loop_body_kept s :
  dirs_kept s → wp (polym_loop_body p env) s (λ _, dirs_kept) (λ _, dirs_kept).
Proof.
  intros H. unfold polym_loop_body. repeat wp_step_k.
  eapply wp_conseq; [apply setup_step_kept; kept_solve | | done].
  intros [] s1 H1. apply wp_bind.
  eapply wp_conseq; [by apply polym_step_while_kept | | done].
  intros code s2 H2. repeat wp_step_k; kept_solve.
  eapply wp_conseq; [by apply em_kept | | done].
  intros [] s3 H3. repeat wp_step_k; kept_solve.
  eapply wp_conseq; [by apply cycle_md_kept | | done].
  intros [] s4 H4. by apply wp_ret.
Qed.

Lemma polym_loop_while_kept fuel : ∀ s,
  dirs_kept s → wp (polym_loop_while p env fuel) s (λ _, dirs_kept) (λ _, dirs_kept).
Proof.
  induction fuel as [|fuel IH]; intros s H; simpl; repeat wp_step_k; kept_solve.
  eapply wp_conseq; [by apply polym_loop_body_kept | | done].
  intros [] s1 H1; cbv beta; [by apply wp_ret | by apply IH].
Qed.

Lemma main_kept s :
  dirs_kept s → wp (main p env) s (λ _, dirs_kept) (λ _, dirs_kept).
Proof.
  intros H. unfold main, polym_loop, print_header, print_footer.
  repeat wp_step_k.
  eapply wp_conseq; [apply polym_init_kept; kept_solve | | done].
  intros [] s1 H1. apply wp_bind.
  eapply wp_conseq; [by apply setup_step_kept | | done].
  intros [] s2 H2. apply wp_bind.
  eapply wp_conseq; [by apply em_kept | | done].
  intros [] s3 H3. repeat wp_step_k.
  eapply wp_conseq; [by apply polym_loop_while_kept | | done].
  intros [] s4 H4. cbv beta.
  eapply wp_conseq; [by apply polym_final_kept | | done].
  intros [] s5 H5. repeat wp_step_k; kept_solve.
Qed.

End Kept.

(** ** Removed: the cleaning loops take every stage directory away when
    [keep] is 0 *)

Lemma suffix_same_length {A} (l1 l2 k : list A) :
  l1 `suffix_of` k → l2 `suffix_of` k → length l1 = length l2 → l1 = l2.
Proof.
  intros [k1 ->] [k2 Hk] Hlen.
  assert (length k1 = length k2).
  { apply (f_equal length) in Hk. rewrite !length_app in Hk. lia. }
  by apply app_inj_1 in Hk as [_ ->].
Qed.

Lemma under_step_not_top top d : under_step top d → d ≠ top.
Proof.
  intros (n & _ & Hsuf) ->. apply suffix_length in Hsuf. simpl in Hsuf. lia.
Qed.

Lemma under_step_anchored top root d k :
  under_step top d → k = top ∨ anchored top root k → d = k →
  ∃ r, root = Some r ∧ (r :: top) `suffix_of` d.
Proof.
  intros Hd [->|[(r & Hr & Hsuf)|(f & Hf & Hsuf)]] ->.
  - by destruct (under_step_not_top _ _ Hd).
  - eauto.
  - destruct Hd as (n & Hn & Hsuf').
    assert (n :: top = f :: top) as [= ->] by (by eapply suffix_same_length).
    congruence.
Qed.

Lemma anchored_cons top root k x : anchored top root k → anchored top root (x :: k).
Proof.
  intros [(r & Hr & Hsuf)|(f & Hf & Hsuf)]; [left|right]; eexists;
    (split; [done|by apply suffix_cons_r]).
Qed.

Lemma copied_writes top root ps pd m m' :
  file_copied ps pd m m' →
  anchored top root pd ∨ (pd = top ∧ ps = top) →
  writes top root m m'.
Proof.
  intros (c & k & Hps & Hk & Hdir & ->) Hpd. right. left. exists k, c.
  split; [done|]. split; [done|].
  destruct Hpd as [Hpd|[-> ->]].
  - right. destruct Hk as [->|[-> _]]; [done|by apply anchored_cons].
  - left. destruct Hk as [->|[_ Htop]]; [done|congruence].
Qed.

Lemma clean0_log top ev s :
  (∀ d, ev ≠ EvMkdir d) → clean0 top s → clean0 top (log_st ev s).
Proof.
  intros Hev H d. rewrite mkdirs_log, fs_log.
  destruct ev; try (rewrite app_nil_r; apply H). by destruct (Hev p).
Qed.

Lemma clean1_log top r ev s :
  (∀ d, ev ≠ EvMkdir d) → clean1 top r s → clean1 top r (log_st ev s).
Proof.
  intros Hev (Hr & Hroot & H). split; [done|]. split; [done|].
  intros d. rewrite mkdirs_log, fs_log.
  destruct ev; try (rewrite app_nil_r; apply H). by destruct (Hev p).
Qed.

Lemma clean0_cwd top c s : clean0 top s → clean0 top (set_cwd_st c s).
Proof. done. Qed.
Lemma clean0_bonds top v s : clean0 top s → clean0 top (set_bonds_st v s).
Proof. done. Qed.
Lemma clean1_cwd top r c s : clean1 top r s → clean1 top r (set_cwd_st c s).
Proof. done. Qed.
Lemma clean1_bonds top r v s : clean1 top r s → clean1 top r (set_bonds_st v s).
Proof. done. Qed.

Lemma clean0_writes top m' s :
  writes top None (fs s) m' → clean0 top s → clean0 top (set_fs_st m' s).
Proof.
  intros Hw H d Hd. rewrite trace_set_fs in Hd. destruct (H d Hd) as [Hu Hnone].
  split; [done|]. rewrite fs_set_fs.
  destruct Hw as [->|[(k & c & -> & _ & Hk)|(k & c & _ & ->)]]; [done| |].
  - destruct (decide (d = k)) as [Heq|Hne].
    + by destruct (under_step_anchored top None d k Hu Hk Heq) as (r & ? & _).
    + by rewrite lookup_insert_ne.
  - destruct (decide (k = d)) as [->|Hne]; [apply lookup_delete_eq|].
    by rewrite lookup_delete_ne.
Qed.

Lemma clean1_writes top r m' s :
  writes top (Some r) (fs s) m' → clean1 top r s → clean1 top r (set_fs_st m' s).
Proof.
  intros Hw (Hr & Hroot & H). split; [done|]. rewrite fs_set_fs, trace_set_fs. split.
  - destruct Hw as [->|[(k & c & -> & Hdir & _)|(k & c & Hk & ->)]]; [done| |].
    + destruct (decide (k = r :: top)) as [->|Hne]; [done|].
      by rewrite lookup_insert_ne.
    + destruct (decide (k = r :: top)) as [->|Hne]; [congruence|].
      by rewrite lookup_delete_ne.
  - intros d Hd. destruct (H d Hd) as [Hu Hd']. split; [done|].
    destruct Hw as [->|[(k & c & -> & _ & Hk)|(k & c & _ & ->)]]; [done| |].
    + destruct (decide (d = k)) as [Heq|Hne].
      * right. destruct (under_step_anchored top (Some r) d k Hu Hk Heq) as (r' & [= <-] & ?).
        done.
      * by rewrite lookup_insert_ne.
    + destruct Hd' as [Hnone|?]; [|by right]. left.
      destruct (decide (k = d)) as [->|Hne]; [apply lookup_delete_eq|].
      by rewrite lookup_delete_ne.
Qed.

(** Making the stage directory [r] of the run directory. *)
Lemma clean1_enter top r s :
  String.prefix "step_" r = true → clean0 top s →
  clean1 top r (set_fs_st (<[r :: top := Dir]> (fs s)) (log_st (EvMkdir (r :: top)) s)).
Proof.
  intros Hr H. split; [done|]. rewrite fs_set_fs, trace_set_fs, mkdirs_log.
  split; [apply lookup_insert_eq|].
  intros d [Hd | ->%list_elem_of_singleton]%elem_of_app.
  - destruct (H d Hd) as [Hu Hnone]. split; [done|].
    destruct (decide (r :: top = d)) as [<-|Hne]; [by right|].
    left. by rewrite lookup_insert_ne.
  - split; [by exists r|by right].
Qed.

(** Making a directory inside the stage directory [r]. *)
Lemma clean1_mkdir top r d s :
  (r :: top) `suffix_of` d → clean1 top r s →
  clean1 top r (set_fs_st (<[d := Dir]> (fs s)) (log_st (EvMkdir d) s)).
Proof.
  intros Hd (Hr & Hroot & H). split; [done|]. rewrite fs_set_fs, trace_set_fs, mkdirs_log.
  split.
  - destruct (decide (d = r :: top)) as [->|Hne]; [apply lookup_insert_eq|].
    by rewrite lookup_insert_ne.
  - intros d' [Hd' | ->%list_elem_of_singleton]%elem_of_app.
    + destruct (H d' Hd') as [Hu Hx]. split; [done|].
      destruct Hx as [Hnone|?]; [|by right].
      destruct (decide (d = d')) as [<-|Hne]; [by right|].
      left. by rewrite lookup_insert_ne.
    + split; [by exists r|by right].
Qed.

Lemma put_writes top root k m m' :
  file_put k m m' → k = top ∨ anchored top root k → writes top root m m'.
Proof.
  intros [->|(c & -> & Hk)] Hsafe; [by left|]. right. left. by exists k, c.
Qed.

Lemma removed_writes top root k m m' : file_removed k m m' → writes top root m m'.
Proof. intros (c & Hk & ->). right. right. by exists k, c. Qed.

Lemma wp_copy_exact src dst s (Q : unit → state → Prop) E :
  (∀ m' k,
     file_copied (resolve (cwd s) src) (resolve (cwd s) dst) (fs s) m' →
     Q tt (set_fs_st m' (log_st (EvCopy (resolve (cwd s) src) k) s))) →
  (∀ e, E (Raise e) s) →
  wp (copy src dst) s Q E.
Proof.
  intros HQ HE. unfold wp, copy.
  destruct (fs s !! resolve (cwd s) src) as [[c|]|] eqn:Hsrc; try apply HE.
  destruct (fs s !! resolve (cwd s) dst) as [[c'|]|] eqn:Hdst.
  - rewrite Hdst. apply HQ. exists c, (resolve (cwd s) dst).
    split_and!; [done|by left|by rewrite Hdst|done].
  - destruct (fs s !! (hd "" (resolve (cwd s) src) :: resolve (cwd s) dst))
      as [[c'|]|] eqn:Htgt; try apply HE.
    + apply HQ. exists c, (hd "" (resolve (cwd s) src) :: resolve (cwd s) dst).
      split_and!; [done|by right|by rewrite Htgt|done].
    + apply HQ. exists c, (hd "" (resolve (cwd s) src) :: resolve (cwd s) dst).
      split_and!; [done|by right|by rewrite Htgt|done].
  - rewrite Hdst. apply HQ. exists c, (resolve (cwd s) dst).
    split_and!; [done|by left|by rewrite Hdst|done].
Qed.

Lemma wp_open_w_exact r s (Q : unit → state → Prop) E :
  (∀ m', file_put (resolve (cwd s) r) (fs s) m' →
         Q tt (set_fs_st m' (log_st (EvOpen (resolve (cwd s) r)) s))) →
  (∀ e, E (Raise e) s) →
  wp (open_w r) s Q E.
Proof.
  intros HQ HE. unfold wp, open_w.
  destruct (fs s !! resolve (cwd s) r) as [[c|]|] eqn:Hk; try apply HE;
    apply HQ; right; exists ""; by rewrite Hk.
Qed.

Lemma wp_call_exact env t cmd out s (Q : Z → state → Prop) E :
  (∀ code m', file_put (resolve (cwd s) out) (fs s) m' →
              Q code (set_fs_st m' (log_st (EvCall t cmd) s))) →
  wp (call env t cmd out) s Q E.
Proof.
  intros HQ. unfold wp, call. destruct (env t cmd s) as [code [c|]].
  - apply HQ. unfold write_out.
    destruct (fs s !! resolve (cwd s) out) as [[c'|]|] eqn:Hk;
      first [by left | right; exists c; by rewrite Hk].
  - specialize (HQ code (fs s) (or_introl eq_refl)). by destruct s.
Qed.

Lemma wp_remove_exact r s (Q : unit → state → Prop) E :
  (∀ m', file_removed (resolve (cwd s) r) (fs s) m' →
         Q tt (set_fs_st m' (log_st (EvRemove (resolve (cwd s) r)) s))) →
  (∀ e, E (Raise e) s) →
  wp (remove r) s Q E.
Proof.
  intros HQ HE. unfold wp, remove.
  destruct (fs s !! resolve (cwd s) r) as [[c|]|] eqn:Hk; try apply HE.
  apply HQ. by exists c.
Qed.

Lemma resolve_nil d : resolve d [] = d.
Proof. done. Qed.

Lemma resolve_up n d r : resolve (n :: d) (".." :: r) = resolve d r.
Proof. done. Qed.

Lemma resolve_name c d r :
  String.eqb c ".." = false → resolve d (c :: r) = resolve (c :: d) r.
Proof. intros H. unfold resolve. simpl. by rewrite H. Qed.

(** The same rules, with the working directory spelled out. *)
Lemma wp_copy_at c src dst s (Q : unit → state → Prop) E :
  cwd s = c →
  (∀ m' k,
     file_copied (resolve c src) (resolve c dst) (fs s) m' →
     Q tt (set_fs_st m' (log_st (EvCopy (resolve c src) k) s))) →
  (∀ e, E (Raise e) s) →
  wp (copy src dst) s Q E.
Proof. intros <-. apply wp_copy_exact. Qed.

Lemma wp_open_w_at c r s (Q : unit → state → Prop) E :
  cwd s = c →
  (∀ m', file_put (resolve c r) (fs s) m' →
         Q tt (set_fs_st m' (log_st (EvOpen (resolve c r)) s))) →
  (∀ e, E (Raise e) s) →
  wp (open_w r) s Q E.
Proof. intros <-. apply wp_open_w_exact. Qed.

Lemma wp_call_at c env t cmd out s (Q : Z → state → Prop) E :
  cwd s = c →
  (∀ code m', file_put (resolve c out) (fs s) m' →
              Q code (set_fs_st m' (log_st (EvCall t cmd) s))) →
  wp (call env t cmd out) s Q E.
Proof. intros <-. apply wp_call_exact. Qed.

Lemma wp_remove_at c r s (Q : unit → state → Prop) E :
  cwd s = c →
  (∀ m', file_removed (resolve c r) (fs s) m' →
         Q tt (set_fs_st m' (log_st (EvRemove (resolve c r)) s))) →
  (∀ e, E (Raise e) s) →
  wp (remove r) s Q E.
Proof. intros <-. apply wp_remove_exact. Qed.

Lemma wp_makedirs_at c r s Q E :
  cwd s = c →
  Q tt (set_fs_st (<[resolve c r := Dir]> (fs s)) (log_st (EvMkdir (resolve c r)) s)) →
  wp (makedirs r) s Q E.
Proof. by intros <-. Qed.

Lemma wp_chdir_at c r s Q E :
  cwd s = c →
  Q tt (set_cwd_st (resolve c r) (log_st (EvChdir r) s)) → wp (chdir r) s Q E.
Proof. by intros <-. Qed.

(** The working directory of a state, in normal form. *)
Ltac resolve_norm :=
  repeat first
    [ rewrite resolve_nil
    | rewrite resolve_up
    | rewrite resolve_name by reflexivity ].

Ltac cwd_eq :=
  autorewrite with st;
  repeat match goal with
         | H : cwd ?s = _ |- context [cwd ?s] => rewrite H
         end;
  resolve_norm; reflexivity.

Ltac wp_step_c :=
  first
    [ lazymatch goal with
      | |- wp (copy _ _) _ _ _ => eapply wp_copy_at; [cwd_eq | intros ? ? ? | intros ?]
      | |- wp (remove _) _ _ _ => eapply wp_remove_at; [cwd_eq | intros ? ? | intros ?]
      | |- wp (open_w _) _ _ _ => eapply wp_open_w_at; [cwd_eq | intros ? ? | intros ?]
      | |- wp (call _ _ _ _) _ _ _ => eapply wp_call_at; [cwd_eq | intros ? ? ?]
      | |- wp (makedirs _) _ _ _ => eapply wp_makedirs_at; [cwd_eq |]
      | |- wp (chdir _) _ _ _ => eapply wp_chdir_at; [cwd_eq |]
      end; cbv beta zeta
    | lazymatch goal with
      | |- wp (rmtree _) _ _ _ => fail
      | |- _ => wp_step
      end ].

(** Where the controller writes: the places named in the script, seen
    from a working directory whose position below [top] is known. *)
Ltac suffix_solve :=
  solve [ repeat first [reflexivity | apply suffix_cons_r] ].

Ltac anchor_solve :=
  resolve_norm; unfold resolve; simpl;
  repeat match goal with
         | |- context [String.eqb ?x ".."] => destruct (String.eqb x "..") eqn:?
         end; simpl;
  first
    [ left; left; eexists; (split; [| suffix_solve]); reflexivity
    | left; right; eexists; (split; [| suffix_solve]); reflexivity
    | right; split; reflexivity
    | left; reflexivity
    | right; left; eexists; (split; [| suffix_solve]); reflexivity
    | right; right; eexists; (split; [| suffix_solve]); reflexivity ].

Ltac writes_solve :=
  first
    [ eapply copied_writes; [eassumption | anchor_solve]
    | eapply put_writes; [eassumption | anchor_solve]
    | eapply removed_writes; eassumption ].

Ltac clean_solve :=
  repeat first
    [ assumption
    | lazymatch goal with
      | |- clean1 _ _ ?s =>
          tryif is_evar s then fail
          else first
            [ apply clean1_cwd
            | apply clean1_bonds
            | apply clean1_log; [intros ?; discriminate |]
            | apply clean1_writes; [writes_solve |]
            | apply clean1_enter; [first [apply step_dir_prefix | apply (md_dir_prefix _ 0)] |]
            | apply clean1_mkdir; [suffix_solve |] ]
      | |- clean0 _ ?s =>
          tryif is_evar s then fail
          else first
            [ apply clean0_cwd
            | apply clean0_bonds
            | apply clean0_log; [intros ?; discriminate |]
            | apply clean0_writes; [writes_solve |] ]
      end ].

Ltac cwd_is := solve [cwd_eq].

Lemma lookup_rmtree (m : gmap (list string) node) (p k : path) :
  filter (λ kv, ¬ p `suffix_of` kv.1) m !! k =
  if decide (p `suffix_of` k) then None else m !! k.
Proof.
  destruct (decide (p `suffix_of` k)) as [Hs|Hs].
  - apply map_lookup_filter_None. right. intros x _ Hn. by apply Hn.
  - destruct (m !! k) as [x|] eqn:Hk.
    + by apply map_lookup_filter_Some.
    + apply map_lookup_filter_None. by left.
Qed.

Lemma wp_rmtree_at c n s (Q : unit → state → Prop) E :
  cwd s = c →
  (fs s !! (n :: c) = Some Dir →
   Q tt (set_fs_st (filter (λ kv, ¬ (n :: c) `suffix_of` kv.1) (fs s))
           (log_st (EvRmtree (n :: c)) s))) →
  (∀ e, E (Raise e) s) →
  wp (rmtree n) s Q E.
Proof.
  intros <- HQ HE. unfold wp, rmtree.
  destruct (fs s !! (n :: cwd s)) as [[x|]|] eqn:Hk; try apply HE. by apply HQ.
Qed.

Lemma wp_for_each_done {A} (I : list A → state → Prop) (body : A → M unit) E (l : list A) :
  (∀ seen x s1, x ∈ l → I seen s1 → wp (body x) s1 (λ _, I (seen ++ [x])) E) →
  ∀ s, I [] s → wp (for_each l body) s (λ _, I l) E.
Proof.
  intros Hbody.
  enough (∀ l' seen s, l' ⊆ l → I seen s →
            wp (for_each l' body) s (λ _, I (seen ++ l')) E) as H
    by (intros s Hs; by apply (H l [] s)).
  induction l' as [|x l' IH]; intros seen s Hsub Hs; simpl.
  - apply wp_ret. by rewrite app_nil_r.
  - apply wp_bind. eapply wp_conseq; [apply Hbody; [|done] | | done].
    + apply Hsub. by left.
    + intros [] s1 H1. cbv beta. rewrite (cons_middle x seen l'), app_assoc.
      apply IH; [|done]. intros y Hy. apply Hsub. by right.
Qed.

Lemma elem_of_glob (pre : string) (c : path) (m : gmap (list string) node) (n : string) :
  n ∈ omap (λ kv : list string * node, glob_match pre c kv.1) (map_to_list m) ↔
  is_Some (m !! (n :: c)) ∧ String.prefix pre n = true.
Proof.
  rewrite list_elem_of_omap. split.
  - intros ([k v] & Hin%elem_of_map_to_list & Hm). simpl in Hm.
    destruct k as [|n' c']; [done|]. simpl in Hm.
    destruct (bool_decide (c' = c)) eqn:Hc; [|done].
    destruct (String.prefix pre n') eqn:Hp; [|done]. simpl in Hm.
    apply bool_decide_eq_true in Hc as ->. injection Hm as ->. by rewrite Hin.
  - intros [[v Hv] Hp]. exists (n :: c, v). split; [by apply elem_of_map_to_list|].
    simpl. by rewrite bool_decide_eq_true_2, Hp.
Qed.

(** What the cleaning loop does when it returns: the trees of all
    entries of the working directory whose names match are gone, and
    nothing else has changed. *)
Lemma rm_glob_ok pre c s :
  cwd s = c →
  wp (rm_glob pre) s
    (λ _ s',
       cwd s' = c ∧ bonds s' = bonds s ∧ mkdirs (trace s') = mkdirs (trace s) ∧
       (∀ k, fs s' !! k = None ∨ fs s' !! k = fs s !! k) ∧
       (∀ k, (∀ n, String.prefix pre n = true → ¬ (n :: c) `suffix_of` k) →
             fs s' !! k = fs s !! k) ∧
       (∀ n k, String.prefix pre n = true → is_Some (fs s !! (n :: c)) →
               (n :: c) `suffix_of` k → fs s' !! k = None))
    (λ _ _, True).
Proof.
  intros Hc. unfold rm_glob. apply wp_bind, wp_glob.
  set (l := omap _ _).
  assert (Hl : ∀ n, n ∈ l ↔ is_Some (fs s !! (n :: c)) ∧ String.prefix pre n = true).
  { intros n. subst l. rewrite Hc. apply elem_of_glob. }
  eapply wp_conseq;
    [apply (λ I, wp_for_each_done I rmtree (λ _ _, True) l) with (I := (λ seen s',
       cwd s' = c ∧ bonds s' = bonds s ∧ mkdirs (trace s') = mkdirs (trace s) ∧
       (∀ k, fs s' !! k = None ∨ fs s' !! k = fs s !! k) ∧
       (∀ k, (∀ n, String.prefix pre n = true → ¬ (n :: c) `suffix_of` k) →
             fs s' !! k = fs s !! k) ∧
       (∀ n k, n ∈ seen → (n :: c) `suffix_of` k → fs s' !! k = None))) | | done].
  - intros seen n s1 Hn (Hc1 & Hb1 & Hm1 & Hshrink & Huntouched & Hgone).
    apply Hl in Hn as [_ Hpre].
    eapply wp_rmtree_at; [exact Hc1 | | done]. intros Hdir.
    autorewrite with st. rewrite mkdirs_log, app_nil_r.
    split_and!; try done.
    + intros k. rewrite lookup_rmtree. destruct (decide _); [by left|]. apply Hshrink.
    + intros k Hk. rewrite lookup_rmtree. destruct (decide _) as [Hs|Hs].
      * by destruct (Hk n Hpre).
      * by apply Huntouched.
    + intros n0 k [Hin | ->%list_elem_of_singleton]%elem_of_app Hsuf.
      * rewrite lookup_rmtree. destruct (decide _); [done|]. by eapply Hgone.
      * rewrite lookup_rmtree. by destruct (decide _).
  - split_and!; [done|done|done|by right|done|].
    intros n k Hn. by apply elem_of_nil in Hn.
  - intros [] s' (Hc' & Hb' & Hm' & Hshrink & Huntouched & Hgone). cbv beta.
    split_and!; try done.
    intros n k Hp Hex Hsuf. eapply Hgone; [|done]. apply Hl. by split.
Qed.

Section Clean.

Context (p : params) (env : oracle) (top : path).

Lemma rm_glob_root r s :
  clean1 top r s → cwd s = top →
  wp (rm_glob "step_") s (λ _ s', clean0 top s' ∧ cwd s' = top) (λ _ _, True).
Proof.
  intros (Hr & Hroot & H) Hc.
  eapply wp_conseq; [by apply rm_glob_ok | | done].
  intros [] s' (Hc' & _ & Hm & Hshrink & _ & Hgone). split; [|done].
  intros d Hd. rewrite Hm in Hd. destruct (H d Hd) as [Hu [Hnone|Hsuf]].
  - split; [done|]. destruct (Hshrink d) as [?|Heq]; [done|congruence].
  - split; [done|]. eapply (Hgone r); [done| |done]. by rewrite Hroot.
Qed.

Lemma rm_glob_inner pre r c s :
  clean1 top r s → cwd s = c → (r :: top) `suffix_of` c →
  wp (rm_glob pre) s (λ _ s', clean1 top r s' ∧ cwd s' = c) (λ _ _, True).
Proof.
  intros (Hr & Hroot & H) Hc Hsuf.
  eapply wp_conseq; [by apply rm_glob_ok | | done].
  intros [] s' (Hc' & _ & Hm & Hshrink & Huntouched & _). split; [|done].
  split; [done|]. split.
  - rewrite Huntouched; [done|]. intros n _ Hn.
    apply suffix_length in Hn, Hsuf. simpl in *. lia.
  - intros d Hd. rewrite Hm in Hd. destruct (H d Hd) as [Hu [Hnone|Hd']].
    + split; [done|]. left. destruct (Hshrink d) as [?|Heq]; [done|congruence].
    + split; [done|by right].
Qed.

Lemma setup_step_clean s :
  clean0 top s → cwd s = top →
  wp setup_step s
    (λ _ s', clean1 top (step_dir (bonds s)) s' ∧ cwd s' = step_dir (bonds s) :: top)
    (λ _ _, True).
Proof.
  intros H Hc. unfold setup_step. repeat wp_step_c; try done.
  all: split; [|cwd_is].
  all: resolve_norm; clean_solve.
Qed.

Lemma setup_md_top s :
  clean0 top s → cwd s = top →
  wp (setup_md 0) s
    (λ _ s', clean1 top (md_dir (bonds s) 0) s' ∧ cwd s' = md_dir (bonds s) 0 :: top)
    (λ _ _, True).
Proof.
  intros H Hc. unfold setup_md. simpl. repeat wp_step_c; try done.
  all: split; [|cwd_is].
  all: resolve_norm; clean_solve.
Qed.

Lemma setup_md_inner num r s :
  clean1 top r s → cwd s = r :: top →
  wp (setup_md num) s
    (λ _ s', clean1 top r s' ∧ cwd s' = md_dir (bonds s) num :: r :: top)
    (λ _ _, True).
Proof.
  intros H Hc. unfold setup_md, md_dir. destruct (num =? 0) eqn:Hnum.
  all: repeat wp_step_c; try done.
  all: split; [|cwd_is].
  all: resolve_norm; clean_solve.
Qed.

Hypothesis Hkeep : (keep p =? 0) = true.

Lemma em_clean r s :
  clean1 top r s → cwd s = r :: top →
  wp (em p env) s (λ _ s', clean0 top s' ∧ cwd s' = top) (λ _ _, True).
Proof.
  intros H Hc. unfold em. rewrite Hkeep. repeat wp_step_c; try done.
  all: eapply (rm_glob_root r); [|cwd_is]; resolve_norm; clean_solve.
Qed.

Lemma md_clean_top num r s :
  num ≠ 0 →
  clean1 top r s → cwd s = r :: top →
  wp (md p env num) s (λ _ s', clean0 top s' ∧ cwd s' = top) (λ _ _, True).
Proof.
  intros Hnum H Hc. unfold md. rewrite Hkeep.
  replace (num =? 0) with false by lia.
  repeat wp_step_c; try done.
  all: eapply (rm_glob_root r); [|cwd_is]; resolve_norm; clean_solve.
Qed.

Lemma md_clean_inner r n s :
  clean1 top r s → cwd s = n :: r :: top →
  wp (md p env 0) s (λ _ s', clean1 top r s' ∧ cwd s' = r :: top) (λ _ _, True).
Proof.
  intros H Hc. unfold md. rewrite Hkeep. simpl.
  repeat wp_step_c; try done.
  all: eapply (rm_glob_inner "md_" r); [|cwd_is|done]; resolve_norm; clean_solve.
Qed.

Lemma polym_step_while_clean fuel : ∀ a r s,
  clean1 top r s → cwd s = r :: top →
  wp (polym_step_while p env fuel a) s
    (λ code s', (code = 0 ∧ clean1 top r s' ∧ cwd s' = r :: top) ∨
                (code = 1 ∧ clean0 top s' ∧ cwd s' = top))
    (λ _ _, True).
Proof.
  induction fuel as [|fuel IH]; intros a r s H Hc; [done|].
  simpl. rewrite Hkeep. repeat wp_step_c; try done.
  - left. split; [done|]. split; [clean_solve|cwd_is].
  - eapply wp_conseq; [eapply (rm_glob_root r); [|cwd_is]; clean_solve | | done].
    intros [] s1 H1. apply wp_ret. by right.
  - eapply wp_conseq; [apply (setup_md_inner a r); [clean_solve|cwd_is] | | done].
    intros [] s1 [H1 Hc1]. apply wp_bind.
    eapply wp_conseq; [by eapply (md_clean_inner r) | | done].
    intros [] s2 [H2 Hc2]. by apply IH.
Qed.

Lemma polym_init_clean s :
  clean0 top s → cwd s = top →
  wp (polym_init p env) s (λ _ s', clean0 top s' ∧ cwd s' = top) (λ _ _, True).
Proof.
  intros H Hc. unfold polym_init. repeat wp_step_c; try done.
  all: split; [clean_solve|cwd_is].
Qed.

Lemma polym_final_clean s :
  clean0 top s → cwd s = top →
  wp (polym_final p env) s (λ _ s', clean0 top s' ∧ cwd s' = top)
    (λ _ s', clean0 top s').
Proof.
  intros H Hc. unfold polym_final. repeat wp_step_c; try done.
  all: try (split; [|cwd_is]).
  all: clean_solve.
Qed.

Lemma print_header_clean s :
  clean0 top s → cwd s = top →
  wp (print_header p) s (λ _ s', clean0 top s' ∧ cwd s' = top) (λ _ _, True).
Proof.
  intros H Hc. unfold print_header. repeat wp_step_c.
  split; [clean_solve|cwd_is].
Qed.

Lemma print_footer_clean s :
  clean0 top s →
  wp (print_footer p) s (λ _, clean0 top) (λ _, clean0 top).
Proof. intros H. unfold print_footer. repeat wp_step_c; clean_solve. Qed.

Lemma cycle_md_clean s :
  clean0 top s → cwd s = top →
  wp (cycle_md p env) s (λ _ s', clean0 top s' ∧ cwd s' = top) (λ _ _, True).
Proof.
  intros H Hc. unfold cycle_md. repeat wp_step_c; try done.
  eapply wp_conseq; [by apply setup_md_top | | done].
  intros [] s1 [H1 Hc1]. repeat wp_step_c; try done.
  all: by eapply md_clean_top.
Qed.

Lemma polym_loop_body_clean s :
  clean0 top s → cwd s = top →
  wp (polym_loop_body p env) s (λ _ s', clean0 top s' ∧ cwd s' = top) (λ _ _, True).
Proof.
  intros H Hc. unfold polym_loop_body. repeat wp_step_c.
  eapply wp_conseq; [apply setup_step_clean; [clean_solve|cwd_is] | | done].
  intros [] s1 [H1 Hc1]. apply wp_bind.
  eapply wp_conseq; [by eapply polym_step_while_clean | | done].
  intros code s2 [(-> & H2 & Hc2)|(-> & H2 & Hc2)]; simpl; [|by apply wp_ret].
  apply wp_bind.
  eapply wp_conseq; [by eapply em_clean | | done].
  intros [] s3 [H3 Hc3]. repeat wp_step_c; try done.
  eapply wp_conseq; [by apply cycle_md_clean | | done].
  intros [] s4 H4. by apply wp_ret.
Qed.

Lemma polym_loop_while_clean fuel : ∀ s,
  clean0 top s → cwd s = top →
  wp (polym_loop_while p env fuel) s (λ _ s', clean0 top s' ∧ cwd s' = top) (λ _ _, True).
Proof.
  induction fuel as [|fuel IH]; intros s H Hc; simpl; repeat wp_step_c; try done.
  eapply wp_conseq; [by apply polym_loop_body_clean | | done].
  intros [] s1 [H1 Hc1]; cbv beta; [by apply wp_ret | by apply IH].
Qed.

Lemma before_final_clean files :
  wp (before_final p env) (start top files)
    (λ _ s', clean0 top s' ∧ cwd s' = top) (λ _ _, True).
Proof.
  assert (H0 : clean0 top (start top files)).
  { intros d Hd. by apply elem_of_nil in Hd. }
  unfold before_final. apply wp_bind.
  eapply wp_conseq; [by apply print_header_clean | | done].
  intros [] s1 [H1 Hc1]. apply wp_bind.
  eapply wp_conseq; [by apply polym_init_clean | | done].
  intros [] s2 [H2 Hc2]. apply wp_bind.
  eapply wp_conseq; [by apply setup_step_clean | | done].
  intros [] s3 [H3 Hc3]. apply wp_bind.
  eapply wp_conseq; [by eapply em_clean | | done].
  intros [] s4 [H4 Hc4]. apply wp_bind, wp_gets.
  by apply polym_loop_while_clean.
Qed.

End Clean.

(** C9.  With [keep = 0], in a run that gets as far as finalization,
    every directory made during the run was a stage directory (it is, or
    lies in, an entry [step_...] of the run directory) and is gone when the
    run ends, whether finalization and the summary succeed or not.  With
    [keep] not 0, every directory made during the run is still there when
    the run ends, however it ends. *)
Theorem stage_directories_cleanup p env top files r s' :
  main p env (start top files) = (r, s') →
  (keep p = 0 →
   (∃ s5, before_final p env (start top files) = (Ok tt, s5)) →
   ∀ d, d ∈ mkdirs (trace s') → under_step top d ∧ fs s' !! d = None) ∧
  (keep p ≠ 0 →
   ∀ d, d ∈ mkdirs (trace s') → fs s' !! d = Some Dir).
Proof.
  intros Hrun. split.
  - intros Hkeep%Z.eqb_eq [s5 H5].
    apply main_split in Hrun. rewrite H5 in Hrun.
    pose proof (before_final_clean p env top Hkeep files) as Hc5.
    eapply wp_run in Hc5; [|exact H5]. destruct Hc5 as [Hc5 Hcwd5].
    pose proof (polym_final_clean p env top s5 Hc5 Hcwd5) as Hc6. unfold wp in Hc6.
    destruct (polym_final p env s5) as [[[]|x6] s6].
    + destruct Hc6 as [Hc6 _].
      pose proof (print_footer_clean p top s6 Hc6) as Hc7.
      eapply wp_run in Hc7; [|exact Hrun]. by destruct r.
    + by destruct Hrun as [_ ->].
  - intros Hkeep%Z.eqb_neq.
    assert (H0 : dirs_kept (start top files)).
    { intros d Hd. by apply elem_of_nil in Hd. }
    pose proof (main_kept p env Hkeep _ H0) as H.
    eapply wp_run in H; [|exact Hrun]. by destruct r.
Qed.

(** * Exhaustion: the attempt is rolled back and the run finishes *)

(** ** The artifacts of the run directory are there when finalization
    starts *)

Lemma art_log top ev s : artifacts top s → artifacts top (log_st ev s).
Proof. done. Qed.
Lemma art_cwd top c s : artifacts top s → artifacts top (set_cwd_st c s).
Proof. done. Qed.
Lemma art_bonds top v s : artifacts top s → artifacts top (set_bonds_st v s).
Proof. done. Qed.

Lemma art_insert_file top k c m' s :
  m' = <[k := File c]> (fs s) → artifacts top s → artifacts top (set_fs_st m' s).
Proof.
  intros -> [Ht Hf]. split; rewrite fs_set_fs.
  - destruct (decide (k = "temp.lmps" :: top)) as [->|Hne].
    + by rewrite lookup_insert_eq.
    + by rewrite lookup_insert_ne.
  - destruct (decide (k = "final.lmps" :: top)) as [->|Hne].
    + by rewrite lookup_insert_eq.
    + by rewrite lookup_insert_ne.
Qed.

Lemma art_copied top ps pd m' s :
  file_copied ps pd (fs s) m' → artifacts top s → artifacts top (set_fs_st m' s).
Proof. intros (c & k & _ & _ & _ & Hm). by apply (art_insert_file top k c). Qed.

Lemma art_put top k m' s :
  file_put k (fs s) m' → artifacts top s → artifacts top (set_fs_st m' s).
Proof.
  intros [->|(c & Hm & _)]; [by destruct s|]. by apply (art_insert_file top k c).
Qed.

Lemma art_mkdir top d s :
  d ≠ "temp.lmps" :: top → d ≠ "final.lmps" :: top →
  artifacts top s →
  artifacts top (set_fs_st (<[d := Dir]> (fs s)) (log_st (EvMkdir d) s)).
Proof.
  intros Ht Hf [H1 H2]. split; rewrite fs_set_fs; by rewrite lookup_insert_ne.
Qed.

Ltac not_artifact :=
  let H := fresh in
  intros H;
  first [ discriminate H
        | solve [injection H; intros; discriminate]
        | solve [apply (f_equal length) in H; simpl in H; lia] ].

Ltac art_solve :=
  repeat first
    [ assumption
    | lazymatch goal with
      | |- artifacts _ ?s =>
          tryif is_evar s then fail
          else first
            [ apply art_cwd
            | apply art_bonds
            | apply art_log
            | eapply art_copied; [eassumption |]
            | eapply art_put; [eassumption |]
            | apply art_mkdir; [not_artifact | not_artifact |] ]
      end ].

Section Artifacts.

Context (p : params) (env : oracle) (top : path).

Lemma rm_glob_art pre c s :
  artifacts top s → cwd s = c → top `suffix_of` c →
  String.prefix pre "temp.lmps" = false →
  wp (rm_glob pre) s (λ _ s', artifacts top s' ∧ cwd s' = c) (λ _ _, True).
Proof.
  intros [Ht Hf] Hc Hsuf Hpre.
  eapply wp_conseq; [by apply rm_glob_ok | | done].
  intros [] s' (Hc' & _ & _ & Hshrink & Huntouched & _). split; [|done]. split.
  - rewrite Huntouched; [done|]. intros n Hn Hs.
    assert (Heq : n :: c = "temp.lmps" :: top); [|injection Heq as Hn' _; congruence].
    pose proof (suffix_length _ _ Hs) as H1. pose proof (suffix_length _ _ Hsuf) as H2.
    simpl in H1. destruct Hs as [[|x l] Hl]; [done|].
    apply (f_equal length) in Hl. simpl in Hl. rewrite length_app in Hl. simpl in Hl. lia.
  - destruct (Hshrink ("final.lmps" :: top)) as [Hx|Hx]; rewrite Hx; done.
Qed.

Lemma setup_step_art s :
  artifacts top s → cwd s = top →
  wp setup_step s
    (λ _ s', artifacts top s' ∧ cwd s' = step_dir (bonds s) :: top) (λ _ _, True).
Proof.
  intros H Hc. unfold setup_step. repeat wp_step_c; try done.
  all: split; [|cwd_is].
  all: resolve_norm; art_solve.
Qed.

Lemma setup_md_art_top s :
  artifacts top s → cwd s = top →
  wp (setup_md 0) s
    (λ _ s', artifacts top s' ∧ cwd s' = md_dir (bonds s) 0 :: top) (λ _ _, True).
Proof.
  intros H Hc. unfold setup_md. simpl. repeat wp_step_c; try done.
  all: split; [|cwd_is].
  all: resolve_norm; art_solve.
Qed.

Lemma setup_md_art_inner num r s :
  artifacts top s → cwd s = r :: top →
  wp (setup_md num) s
    (λ _ s', artifacts top s' ∧ cwd s' = md_dir (bonds s) num :: r :: top)
    (λ _ _, True).
Proof.
  intros H Hc. unfold setup_md, md_dir. destruct (num =? 0) eqn:Hnum.
  all: repeat wp_step_c; try done.
  all: split; [|cwd_is].
  all: resolve_norm; art_solve.
Qed.

Lemma em_art r s :
  artifacts top s → cwd s = r :: top →
  wp (em p env) s (λ _ s', artifacts top s' ∧ cwd s' = top) (λ _ _, True).
Proof.
  intros H Hc. unfold em. repeat wp_step_c; try done.
  - eapply rm_glob_art; [art_solve | cwd_is | done | done].
  - split; [art_solve | cwd_is].
Qed.

Lemma md_art_top num r s :
  num ≠ 0 →
  artifacts top s → cwd s = r :: top →
  wp (md p env num) s (λ _ s', artifacts top s' ∧ cwd s' = top) (λ _ _, True).
Proof.
  intros Hnum H Hc. unfold md. replace (num =? 0) with false by lia.
  repeat wp_step_c; try done.
  all: first [ eapply rm_glob_art; [art_solve | cwd_is | done | done]
             | split; [art_solve | cwd_is] ].
Qed.

Lemma md_art_inner r n s :
  artifacts top s → cwd s = n :: r :: top →
  wp (md p env 0) s (λ _ s', artifacts top s' ∧ cwd s' = r :: top) (λ _ _, True).
Proof.
  intros H Hc. unfold md. simpl. repeat wp_step_c; try done.
  all: first [ eapply rm_glob_art; [art_solve | cwd_is | by apply suffix_cons_r | done]
             | split; [art_solve | cwd_is] ].
Qed.

Lemma polym_step_while_art fuel : ∀ a r s,
  artifacts top s → cwd s = r :: top →
  wp (polym_step_while p env fuel a) s
    (λ code s', artifacts top s' ∧
                ((code = 0 ∧ cwd s' = r :: top) ∨ (code = 1 ∧ cwd s' = top)))
    (λ _ _, True).
Proof.
  induction fuel as [|fuel IH]; intros a r s H Hc; [done|].
  simpl. repeat wp_step_c; try done.
  - split; [art_solve|]. left. split; [done|cwd_is].
  - eapply wp_conseq; [eapply rm_glob_art; [art_solve | cwd_is | done | done] | | done].
    intros [] s1 [H1 Hc1]. apply wp_ret. split; [done|]. by right.
  - split; [art_solve|]. right. split; [done|cwd_is].
  - eapply wp_conseq; [apply (setup_md_art_inner a r); [art_solve|cwd_is] | | done].
    intros [] s1 [H1 Hc1]. apply wp_bind.
    eapply wp_conseq; [by eapply (md_art_inner r) | | done].
    intros [] s2 [H2 Hc2]. by apply IH.
Qed.

Lemma polym_init_art s :
  fs s !! ("final.lmps" :: top) ≠ Some Dir → cwd s = top →
  wp (polym_init p env) s (λ _ s', artifacts top s' ∧ cwd s' = top) (λ _ _, True).
Proof.
  intros Hf Hc. unfold polym_init. repeat wp_step_c; try done.
  split; [|cwd_is].
  match goal with
  | H : negb _ || negb (is_file (fs ?s1 !! resolve (cwd ?s1) _)) = false |- _ =>
      apply orb_false_elim in H as [_ H]; apply negb_false_iff in H;
      assert (Hc1 : cwd s1 = top) by cwd_is; rewrite Hc1 in H
  end.
  split; [done|]. autorewrite with st.
  match goal with
  | H : file_put _ _ ?m |- _ => destruct H as [->|(c & -> & _)]
  end; [done|].
  resolve_norm. by rewrite lookup_insert_ne.
Qed.

Lemma print_header_art s :
  fs s !! ("final.lmps" :: top) ≠ Some Dir → cwd s = top →
  wp (print_header p) s
    (λ _ s', fs s' !! ("final.lmps" :: top) ≠ Some Dir ∧ cwd s' = top) (λ _ _, True).
Proof. intros Hf Hc. unfold print_header. by repeat wp_step_c. Qed.

Lemma cycle_md_art s :
  artifacts top s → cwd s = top →
  wp (cycle_md p env) s (λ _ s', artifacts top s' ∧ cwd s' = top) (λ _ _, True).
Proof.
  intros H Hc. unfold cycle_md. repeat wp_step_c; try done.
  eapply wp_conseq; [by apply setup_md_art_top | | done].
  intros [] s1 [H1 Hc1]. repeat wp_step_c; try done.
  all: by eapply md_art_top.
Qed.

Lemma attempt_bond_art s :
  artifacts top s → cwd s = top →
  wp (attempt_bond p env) s
    (λ code s', artifacts top s' ∧ (code = 1 → cwd s' = top)) (λ _ _, True).
Proof.
  intros H Hc. unfold attempt_bond. repeat wp_step_c.
  eapply wp_conseq; [apply setup_step_art; [art_solve|cwd_is] | | done].
  intros [] s1 [H1 Hc1].
  eapply wp_conseq; [by eapply polym_step_while_art | | done].
  intros code s2 [H2 [[-> Hc2]|[-> Hc2]]]; by split.
Qed.

Lemma polym_loop_body_art s :
  artifacts top s → cwd s = top →
  wp (polym_loop_body p env) s (λ _ s', artifacts top s' ∧ cwd s' = top) (λ _ _, True).
Proof.
  intros H Hc. unfold polym_loop_body. repeat wp_step_c.
  eapply wp_conseq; [apply setup_step_art; [art_solve|cwd_is] | | done].
  intros [] s1 [H1 Hc1]. apply wp_bind.
  eapply wp_conseq; [by eapply polym_step_while_art | | done].
  intros code s2 [H2 [[-> Hc2]|[-> Hc2]]]; simpl; [|by apply wp_ret].
  apply wp_bind.
  eapply wp_conseq; [by eapply em_art | | done].
  intros [] s3 [H3 Hc3]. repeat wp_step_c; try done.
  eapply wp_conseq; [by apply cycle_md_art | | done].
  intros [] s4 H4. by apply wp_ret.
Qed.

Lemma before_loop_art files :
  files !! ("final.lmps" :: top) ≠ Some Dir →
  wp (before_loop p env) (start top files)
    (λ _ s', artifacts top s' ∧ cwd s' = top) (λ _ _, True).
Proof.
  intros Hf. unfold before_loop. apply wp_bind.
  eapply wp_conseq; [by apply print_header_art | | done].
  intros [] s1 [H1 Hc1]. apply wp_bind.
  eapply wp_conseq; [by apply polym_init_art | | done].
  intros [] s2 [H2 Hc2]. apply wp_bind.
  eapply wp_conseq; [by apply setup_step_art | | done].
  intros [] s3 [H3 Hc3]. by eapply em_art.
Qed.

(** When the finalization script is there and does its work,
    [polym_final] returns. *)
Lemma polym_final_returns script s :
  script_final p = Some script →
  (∀ cmd s0, ∃ c, env ToolFinal cmd s0 = (0, Some c)) →
  artifacts top s → cwd s = top →
  ∃ s', polym_final p env s = (Ok tt, s').
Proof.
  intros Hs Henv [Ht Hf] Hc.
  unfold polym_final, bind, print, emit, call, isfile, remove, ret. rewrite Hs.
  match goal with
  | |- context [env ToolFinal ?cmd ?s0] => destruct (Henv cmd s0) as [c He]; rewrite He
  end.
  autorewrite with st. rewrite Hc. unfold resolve. simpl. unfold write_out.
  destruct (fs s !! ("final.lmps" :: top)) as [[c'|]|] eqn:Hfin; try done.
  all: autorewrite with st; rewrite lookup_insert_eq; simpl.
  all: autorewrite with st; rewrite lookup_insert_ne by (intros [=]).
  all: rewrite ?Hc; destruct (fs s !! ("temp.lmps" :: top)) as [[c''|]|]; try done; eauto.
Qed.

End Artifacts.

(** ** The turn of the main loop in which [polym_step] returns 1 *)

Lemma sets_rolled_back p ts s s' :
  bonds_inv p s → rolled_back ts s s' →
  sets (trace s') = seqZ 1 (bonds s) ++ [bonds s - 1].
Proof.
  intros Hs (s1 & Hf1 & Hf2).
  pose proof (bonds_inv_frame p _ _ _ Hf1 Hs) as (Hb & Hall & Hsets).
  rewrite (frame_sets _ _ _ Hf2), trace_set_bonds, sets_log, Hsets.
  by rewrite (frame_bonds _ _ _ Hf1).
Qed.

Section Exhausted.

Context (p : params) (env : oracle).

(** A turn that stays in the loop. *)
Lemma polym_loop_while_turn fuel s s' :
  bonds s < bonds_tot p →
  polym_loop_body p env s = (Ok false, s') →
  polym_loop_while p env (S fuel) s = polym_loop_while p env fuel s'.
Proof.
  intros Hlt Hbody. simpl. unfold bind at 1. unfold gets at 1.
  replace (bonds s <? bonds_tot p) with true by lia.
  unfold bind at 1. by rewrite Hbody.
Qed.

(** The turn in which [polym_step] returns 1 is the last. *)
Lemma polym_loop_while_exhausted fuel s s1 :
  bonds s < bonds_tot p →
  attempt_bond p env s = (Ok 1, s1) →
  polym_loop_while p env (S fuel) s = (Ok tt, s1).
Proof.
  intros Hlt Hatt. simpl. unfold bind at 1. unfold gets at 1.
  replace (bonds s <? bonds_tot p) with true by lia.
  unfold bind at 1. by rewrite (polym_loop_body_exhausted _ _ _ _ Hatt).
Qed.

(** From the top of any turn, the run of [main] is the rest of the loop,
    finalization and the summary; the fuel left is enough. *)
Lemma main_at_loop_state s0 s :
  loop_state p env s0 s →
  ∃ fuel, (Z.to_nat (bonds_tot p - bonds s) ≤ fuel)%nat ∧
    main p env s0 =
      ((polym_loop_while p env fuel ;; polym_final p env) ;; print_footer p) s.
Proof.
  induction 1 as [s Hfirst | s s' _ (fuel & Hfuel & IH) Hlt Hbody].
  - exists (Z.to_nat (bonds_tot p - bonds s)). split; [lia|].
    revert Hfirst. unfold main, polym_loop, before_loop, bind, gets.
    destruct (print_header p s0) as [[[]|x1] s1]; [|done].
    destruct (polym_init p env s1) as [[[]|x2] s2]; [|done].
    destruct (setup_step s2) as [[[]|x3] s3]; [|done].
    by intros ->.
  - destruct fuel as [|fuel]; [lia|]. exists fuel. split.
    + pose proof (polym_loop_body_frame p env s) as Hfr.
      eapply wp_run in Hfr; [|exact Hbody]. destruct Hfr as [Hf _].
      rewrite (frame_bonds _ _ _ Hf). simpl. lia.
    + rewrite IH. unfold bind. by rewrite (polym_loop_while_turn fuel s s').
Qed.

Lemma before_loop_bonds s0 :
  bonds_inv p s0 → wp (before_loop p env) s0 (λ _, bonds_inv p) (λ _ _, True).
Proof.
  intros H0. unfold before_loop. apply wp_bind.
  eapply wp_conseq; [apply (print_header_frame p no_tool), frame_refl | | done].
  intros [] s1 Hf1. apply wp_bind.
  eapply wp_conseq;
    [apply (polym_init_frame p env (only ToolInit)); [done|apply frame_refl] | | done].
  intros [] s2 Hf2. apply wp_bind.
  eapply wp_conseq; [apply (setup_step_frame no_tool), frame_refl | | done].
  intros [] s3 Hf3.
  eapply wp_conseq; [apply (em_frame p env (only ToolEm)); [done|apply frame_refl] | | done].
  intros [] s4 Hf4. eauto using bonds_inv_frame.
Qed.

(** At the top of every turn the run directory is the working
    directory, its artifacts are in place, and the counter is as it
    should be. *)
Lemma loop_state_inv top files s :
  files !! ("final.lmps" :: top) ≠ Some Dir →
  0 ≤ bonds_tot p →
  loop_state p env (start top files) s →
  artifacts top s ∧ cwd s = top ∧ bonds_inv p s.
Proof.
  intros Hfiles Htot.
  induction 1 as [s Hfirst | s s' _ (Hart & Hcwd & Hinv) Hlt Hbody].
  - pose proof (before_loop_art p env top files Hfiles) as H1.
    eapply wp_run in H1; [|exact Hfirst]. destruct H1 as [Hart Hcwd].
    split; [done|]. split; [done|].
    assert (H0 : bonds_inv p (start top files)).
    { split; [|split]; simpl; [lia|constructor|done]. }
    pose proof (before_loop_bonds _ H0) as H2.
    by eapply wp_run in H2; [|exact Hfirst].
  - pose proof (polym_loop_body_art p env top s Hart Hcwd) as H1.
    eapply wp_run in H1; [|exact Hbody]. destruct H1 as [Hart' Hcwd'].
    split; [done|]. split; [done|].
    pose proof (polym_loop_body_frame p env s) as Hfr.
    eapply wp_run in Hfr; [|exact Hbody]. destruct Hfr as [Hf _].
    eapply bonds_inv_frame; [exact Hf|]. by apply bonds_inv_incr.
Qed.

End Exhausted.

(** C2.  In a run of [main], take the turn of the main loop in which
    [polym_step] returns 1: the counter had been raised to [k] for the
    attempt.  Then the counter is back at [k - 1] and the turn leaves the
    loop.  If the finalization script is set and does its work wherever
    it is called (it ends with status 0 and writes its output), and
    [final.lmps] was no directory of the run directory at the start, then
    finalization is what runs next and it returns, the summary is
    printed, and the run of [main] returns: the process ends with status
    0.  At the end the counter is [k - 1]; the values it was given are
    1, ..., [k] and then [k - 1], so no further attempt was made.  The
    numbers [bonds_tot] and [md_cyc] are taken below 2^53, where the
    arithmetic of the script is exact whichever interpreter runs it. *)
Theorem exhaustion_rolls_back p env top files script s k s1 :
  script_final p = Some script →
  (∀ cmd s0, ∃ c, env ToolFinal cmd s0 = (0, Some c)) →
  files !! ("final.lmps" :: top) ≠ Some Dir →
  0 ≤ bonds_tot p < 2 ^ 53 →
  Z.abs (md_cyc p) < 2 ^ 53 →
  loop_state p env (start top files) s →
  bonds s < bonds_tot p →
  k = bonds s + 1 →
  attempt_bond p env s = (Ok 1, s1) →
  bonds s1 = k - 1 ∧
  polym_loop_body p env s = (Ok true, s1) ∧
  ∃ s2 s',
    polym_final p env s1 = (Ok tt, s2) ∧
    print_footer p s2 = (Ok tt, s') ∧
    main p env (start top files) = (Ok tt, s') ∧
    exit_status (main p env (start top files)).1 = Some 0 ∧
    bonds s' = k - 1 ∧
    sets (trace s') = seqZ 1 k ++ [k - 1].
Proof.
  intros Hscript Henv Hfiles [Htot Hlim53] _ Hloop Hlt -> Hatt.
  assert (Hlim : bonds_tot p < float_limit).
  { eapply Z.lt_trans; [exact Hlim53|]. vm_compute. reflexivity. }
  destruct (loop_state_inv p env top files s Hfiles Htot Hloop) as (Hart & Hcwd & Hinv).
  pose proof (attempt_bond_frame p env s) as Hfr.
  eapply wp_run in Hfr; [|exact Hatt]. destruct Hfr as [[? _]|[_ Hrb]]; [done|].
  pose proof (attempt_bond_art p env top s Hart Hcwd) as Ha.
  eapply wp_run in Ha; [|exact Hatt]. destruct Ha as [Hart1 Hcwd1].
  specialize (Hcwd1 eq_refl).
  pose proof (rolled_back_bonds _ _ _ Hrb) as Hb1. simpl in Hb1.
  pose proof (sets_rolled_back p _ _ _ (bonds_inv_incr p s Hinv Hlt) Hrb) as Hsets1.
  simpl in Hsets1.
  destruct (polym_final_returns p env top script s1 Hscript Henv Hart1 Hcwd1)
    as [s2 Hfinal].
  pose proof (polym_final_ok p env _ _ Hfinal) as (_ & Hb2 & _).
  pose proof (polym_final_frame p env (only ToolFinal) s1 s1 eq_refl (frame_refl _ _)) as Hf2.
  eapply wp_run in Hf2; [|exact Hfinal]. simpl in Hf2.
  destruct (print_footer p s2) as [r s'] eqn:Hfoot.
  pose proof (print_footer_ok p _ _ _ Hfoot) as (_ & _ & Hb3 & _ & Hr & _).
  destruct Hinv as ((Hb0 & _) & _).
  assert (r = Ok tt) as ->.
  { apply Hr. unfold float_ok. split; [lia|]. split; apply Z.ltb_lt; lia. }
  pose proof (print_footer_frame p no_tool s2 s2 (frame_refl _ _)) as Hf3.
  eapply wp_run in Hf3; [|exact Hfoot]. simpl in Hf3.
  destruct (main_at_loop_state p env _ _ Hloop) as ([|fuel] & Hfuel & Hmain); [lia|].
  assert (Hrun : main p env (start top files) = (Ok tt, s')).
  { rewrite Hmain. unfold bind.
    by rewrite (polym_loop_while_exhausted p env fuel s s1 Hlt Hatt), Hfinal, Hfoot. }
  split; [lia|]. split; [by apply polym_loop_body_exhausted|].
  exists s2, s'. split_and!; try done.
  - by rewrite Hrun.
  - lia.
  - by rewrite (frame_sets _ _ _ Hf3), (frame_sets _ _ _ Hf2).
Qed.

(** * Absent initialization and finalization scripts *)

Section Absent.

Context (p : params) (env : oracle).

Lemma polym_init_absent s c :
  script_init p = None →
  fs s !! ("data.lmps" :: cwd s) = Some (File c) →
  fs s !! ("temp.lmps" :: cwd s) ≠ Some Dir →
  polym_init p env s =
    (Fail (Raise UnboundLocalError),
     set_fs_st (<["temp.lmps" :: cwd s := File c]> (fs s))
       (log_st (EvCopy ("data.lmps" :: cwd s) ("temp.lmps" :: cwd s))
          (log_st (EvPrint "Initialization:") s))).
Proof.
  intros Hs Hsrc Hdst. unfold polym_init, bind, print, emit, copy. rewrite Hs.
  autorewrite with st. unfold resolve. simpl. rewrite Hsrc.
  destruct (fs s !! ("temp.lmps" :: cwd s)) as [[c'|]|] eqn:Ht; try done.
  all: by rewrite Ht.
Qed.

Lemma polym_init_absent_fails s r s' :
  script_init p = None → polym_init p env s = (r, s') → ∃ e, r = Fail (Raise e).
Proof.
  intros Hs. unfold polym_init, bind, print, emit, copy, ret, raise. rewrite Hs.
  repeat (case_match; simplify_eq); intros; simplify_eq; eauto.
Qed.

Lemma polym_final_absent s c :
  script_final p = None →
  fs s !! ("temp.lmps" :: cwd s) = Some (File c) →
  fs s !! ("final.lmps" :: cwd s) ≠ Some Dir →
  polym_final p env s =
    (Fail (Raise UnboundLocalError),
     set_fs_st (<["final.lmps" :: cwd s := File c]> (fs s))
       (log_st (EvCopy ("temp.lmps" :: cwd s) ("final.lmps" :: cwd s))
          (log_st (EvPrint "Finalization:") s))).
Proof.
  intros Hs Hsrc Hdst. unfold polym_final, bind, print, emit, copy. rewrite Hs.
  autorewrite with st. unfold resolve. simpl. rewrite Hsrc.
  destruct (fs s !! ("final.lmps" :: cwd s)) as [[c'|]|] eqn:Ht; try done.
  all: by rewrite Ht.
Qed.

Lemma polym_final_absent_fails s r s' :
  script_final p = None → polym_final p env s = (r, s') → ∃ e, r = Fail (Raise e).
Proof.
  intros Hs. unfold polym_final, bind, print, emit, copy, ret, raise. rewrite Hs.
  repeat (case_match; simplify_eq); intros; simplify_eq; eauto.
Qed.

End Absent.

(** C5.  What the code does when a script is absent.  With
    [script_init = 0], [polym_init] copies [data.lmps] to [temp.lmps] and
    then dies of [UnboundLocalError] at the test of [code], which was
    never assigned; with [script_final = 0], [polym_final] copies
    [temp.lmps] to [final.lmps] and dies in the same way, before
    [temp.lmps] is removed.  Neither function ever returns: the run does
    not continue, and the process ends with status 1. *)
Theorem absent_script_is_fatal p env s :
  (script_init p = None →
   (∀ c, fs s !! ("data.lmps" :: cwd s) = Some (File c) →
         fs s !! ("temp.lmps" :: cwd s) ≠ Some Dir →
         polym_init p env s =
           (Fail (Raise UnboundLocalError),
            set_fs_st (<["temp.lmps" :: cwd s := File c]> (fs s))
              (log_st (EvCopy ("data.lmps" :: cwd s) ("temp.lmps" :: cwd s))
                 (log_st (EvPrint "Initialization:") s)))) ∧
   (∀ r s', polym_init p env s = (r, s') →
            (∃ e, r = Fail (Raise e)) ∧ exit_status r = Some 1)) ∧
  (script_final p = None →
   (∀ c, fs s !! ("temp.lmps" :: cwd s) = Some (File c) →
         fs s !! ("final.lmps" :: cwd s) ≠ Some Dir →
         polym_final p env s =
           (Fail (Raise UnboundLocalError),
            set_fs_st (<["final.lmps" :: cwd s := File c]> (fs s))
              (log_st (EvCopy ("temp.lmps" :: cwd s) ("final.lmps" :: cwd s))
                 (log_st (EvPrint "Finalization:") s)))) ∧
   (∀ r s', polym_final p env s = (r, s') →
            (∃ e, r = Fail (Raise e)) ∧ exit_status r = Some 1)).
Proof.
  split; intros Hs; (split; [intros c; by first [apply polym_init_absent | apply polym_final_absent]|]).
  - intros r s' Hrun. destruct (polym_init_absent_fails p env s r s' Hs Hrun) as [e ->]. eauto.
  - intros r s' Hrun. destruct (polym_final_absent_fails p env s r s' Hs Hrun) as [e ->]. eauto.
Qed.

(** * The properties at work on a small run *)

Lemma fs_wfb_ok m : fs_wfb m = true → fs_wf m.
Proof.
  unfold fs_wfb, fs_wf. rewrite forallb_forall. intros H k x Hk.
  specialize (H (k, x)). simpl in H.
  destruct k as [|n d]; [done|].
  destruct (m !! d) as [[c|]|]; try done; discriminate H.
  all: apply list_elem_of_In; by apply elem_of_map_to_list.
Qed.

Lemma polym_step_attempt_bound_witness :
  ∃ new,
    trace (polym_step (demo_params 2 1 0) env_nc demo_step_state).2 =
      trace demo_step_state ++ new ∧
    (1 ≤ Z.of_nat (count (is_call ToolStep) new) ≤ md_max (demo_params 2 1 0) + 1) ∧
    ((polym_step (demo_params 2 1 0) env_nc demo_step_state).1 = Ok 1 →
     Z.of_nat (count (is_call ToolStep) new) = md_max (demo_params 2 1 0) + 1) ∧
    (polym_step (demo_params 2 1 0) env_nc demo_step_state).1 ≠ Fail OutOfFuel.
Proof.
  apply (polym_step_attempt_bound (demo_params 2 1 0) env_nc demo_step_state).
  - simpl. lia.
  - apply run_eq. reflexivity.
Defined.

Lemma exhaustion_rolls_back_witness :
  bonds (attempt_bond (demo_params 2 1 0) env_nc demo_first_turn).2 = 1 - 1 ∧
  polym_loop_body (demo_params 2 1 0) env_nc demo_first_turn =
    (Ok true, (attempt_bond (demo_params 2 1 0) env_nc demo_first_turn).2) ∧
  ∃ s2 s',
    polym_final (demo_params 2 1 0) env_nc
      (attempt_bond (demo_params 2 1 0) env_nc demo_first_turn).2 = (Ok tt, s2) ∧
    print_footer (demo_params 2 1 0) s2 = (Ok tt, s') ∧
    main (demo_params 2 1 0) env_nc (start demo_top demo_files) = (Ok tt, s') ∧
    exit_status (main (demo_params 2 1 0) env_nc (start demo_top demo_files)).1 = Some 0 ∧
    bonds s' = 1 - 1 ∧
    sets (trace s') = seqZ 1 1 ++ [1 - 1].
Proof.
  apply (exhaustion_rolls_back (demo_params 2 1 0) env_nc demo_top demo_files
           "polym_final.pl" demo_first_turn 1
           (attempt_bond (demo_params 2 1 0) env_nc demo_first_turn).2).
  - reflexivity.
  - intros cmd s0. by eexists.
  - intros H. vm_compute in H. discriminate H.
  - split; [simpl; lia | vm_compute; reflexivity].
  - vm_compute. reflexivity.
  - apply loop_first. unfold demo_first_turn.
    refine (run_eq (before_loop (demo_params 2 1 0) env_nc)
              (start demo_top demo_files) (Ok tt) _).
    vm_compute. reflexivity.
  - vm_compute. reflexivity.
  - vm_compute. reflexivity.
  - refine (run_eq (attempt_bond (demo_params 2 1 0) env_nc) demo_first_turn (Ok 1) _).
    vm_compute. reflexivity.
Defined.

Lemma stage_enter_leave_paired_witness :
  cwd (main (demo_params 2 1 0) env_nc (start demo_top demo_files)).2 = demo_top ∧
  count is_enter (trace (main (demo_params 2 1 0) env_nc (start demo_top demo_files)).2) =
  count is_leave (trace (main (demo_params 2 1 0) env_nc (start demo_top demo_files)).2).
Proof.
  assert (Hrun : main (demo_params 2 1 0) env_nc (start demo_top demo_files) =
                 (Ok tt, (main (demo_params 2 1 0) env_nc (start demo_top demo_files)).2))
    by (apply run_eq; vm_compute; reflexivity).
  apply (stage_enter_leave_paired _ _ _ _ _ _ Hrun). reflexivity.
Defined.

Lemma cycle_policy_16_5_3_witness :
  cycle_runs (trace (main user_setup env_ok (start demo_top demo_files)).2) =
    [(5, 1); (10, 1); (15, 2)].
Proof.
  apply (cycle_policy_16_5_3 user_setup env_ok demo_top demo_files).
  - reflexivity.
  - reflexivity.
  - reflexivity.
  - apply run_eq. vm_compute. reflexivity.
  - vm_compute. reflexivity.
Defined.

Lemma bonds_in_range_witness :
  bonds (start demo_top demo_files) = 0 ∧
  Forall (λ e, 0 ≤ e_bonds e ≤ bonds_tot (demo_params 2 1 0))
    (trace (main (demo_params 2 1 0) env_nc (start demo_top demo_files)).2) ∧
  0 ≤ bonds (main (demo_params 2 1 0) env_nc (start demo_top demo_files)).2
    ≤ bonds_tot (demo_params 2 1 0) ∧
  ∃ k, 0 ≤ k ≤ bonds_tot (demo_params 2 1 0) ∧
    ((sets (trace (main (demo_params 2 1 0) env_nc (start demo_top demo_files)).2) = seqZ 1 k ∧
      bonds (main (demo_params 2 1 0) env_nc (start demo_top demo_files)).2 = k) ∨
     (1 ≤ k ∧
      sets (trace (main (demo_params 2 1 0) env_nc (start demo_top demo_files)).2) =
        seqZ 1 k ++ [k - 1] ∧
      bonds (main (demo_params 2 1 0) env_nc (start demo_top demo_files)).2 = k - 1)).
Proof.
  apply (bonds_in_range (demo_params 2 1 0) env_nc demo_top demo_files
           (main (demo_params 2 1 0) env_nc (start demo_top demo_files)).1).
  - simpl. lia.
  - apply run_eq. reflexivity.
Defined.

Lemma finalization_runs_once_witness :
  (count (is_call ToolFinal)
     (trace (main (demo_params 2 1 0) env_ok (start demo_top demo_files)).2) = 1%nat ∧
   is_file (fs (main (demo_params 2 1 0) env_ok (start demo_top demo_files)).2
              !! ("final.lmps" :: demo_top)) = true ∧
   fs (main (demo_params 2 1 0) env_ok (start demo_top demo_files)).2
     !! ("temp.lmps" :: demo_top) = None ∧
   exit_status (Ok tt : result unit) = Some 0) ∧
  (count (is_call ToolFinal)
     (trace (main (demo_params 2 1 0) env_nc (start demo_top demo_files)).2) = 1%nat ∧
   is_file (fs (main (demo_params 2 1 0) env_nc (start demo_top demo_files)).2
              !! ("final.lmps" :: demo_top)) = true ∧
   fs (main (demo_params 2 1 0) env_nc (start demo_top demo_files)).2
     !! ("temp.lmps" :: demo_top) = None ∧
   exit_status (Ok tt : result unit) = Some 0).
Proof.
  split.
  - apply (finalization_runs_once (demo_params 2 1 0) env_ok demo_top demo_files (Ok tt));
      [apply run_eq; vm_compute; reflexivity | reflexivity].
  - apply (finalization_runs_once (demo_params 2 1 0) env_nc demo_top demo_files (Ok tt));
      [apply run_eq; vm_compute; reflexivity | reflexivity].
Defined.

Lemma stage_collision_is_fatal_witness :
  setup_step demo_stale_state =
    (Fail (SysExit 1),
     log_st (EvPrint (cat ["Error: Directory '"; step_dir 0; "' already exists."]))
       (log_st (EvPrint (cat ["Step "; fmt_d 0; ":"])) demo_stale_state)) ∧
  setup_md 1 demo_stale_state =
    (Fail (SysExit 1),
     log_st (EvPrint (cat ["Error: Directory '"; md_dir 0 1; "' already exists."]))
       demo_stale_state).
Proof.
  split.
  - apply (proj1 (stage_collision_is_fatal demo_stale_state)).
    vm_compute. eauto.
  - apply (proj2 (stage_collision_is_fatal demo_stale_state) 1).
    vm_compute. eauto.
Defined.

Lemma stage_directories_cleanup_witness :
  (under_step demo_top ["md_001"; "step_001"; "run"] ∧
   fs (main (demo_params 2 1 0) env_nc (start demo_top demo_files)).2
     !! ["md_001"; "step_001"; "run"] = None) ∧
  fs (main (demo_params 2 1 1) env_nc (start demo_top demo_files)).2
    !! ["md_001"; "step_001"; "run"] = Some Dir.
Proof.
  split.
  - apply (proj1 (stage_directories_cleanup (demo_params 2 1 0) env_nc demo_top demo_files
                    (main (demo_params 2 1 0) env_nc (start demo_top demo_files)).1
                    (main (demo_params 2 1 0) env_nc (start demo_top demo_files)).2
                    (run_eq _ _ _ eq_refl))).
    + reflexivity.
    + eexists. apply run_eq. vm_compute. reflexivity.
    + apply (bool_decide_unpack _). vm_compute. exact I.
  - apply (proj2 (stage_directories_cleanup (demo_params 2 1 1) env_nc demo_top demo_files
                    (main (demo_params 2 1 1) env_nc (start demo_top demo_files)).1
                    (main (demo_params 2 1 1) env_nc (start demo_top demo_files)).2
                    (run_eq _ _ _ eq_refl))).
    + simpl. lia.
    + apply (bool_decide_unpack _). vm_compute. exact I.
Defined.

Lemma setup_step_staged_name_witness :
  ∃ c, fs demo_loop_state !! ("temp.lmps" :: cwd demo_loop_state) = Some (File c) ∧
       cwd (setup_step demo_loop_state).2 = step_dir 0 :: cwd demo_loop_state ∧
       fs (setup_step demo_loop_state).2 =
         <["data.lmps" :: step_dir 0 :: cwd demo_loop_state := File c]>
           (<[step_dir 0 :: cwd demo_loop_state := Dir]> (fs demo_loop_state)) ∧
       fs (setup_step demo_loop_state).2
         !! ("init.lmps" :: step_dir 0 :: cwd demo_loop_state) = None.
Proof.
  apply (setup_step_staged_name demo_loop_state (setup_step demo_loop_state).2).
  - apply fs_wfb_ok. vm_compute. reflexivity.
  - apply run_eq. vm_compute. reflexivity.
Defined.

Lemma absent_script_is_fatal_witness :
  polym_init demo_params_no_scripts env_ok (start demo_top demo_files) =
    (Fail (Raise UnboundLocalError),
     set_fs_st (<["temp.lmps" :: demo_top := File "pack"]> demo_files)
       (log_st (EvCopy ("data.lmps" :: demo_top) ("temp.lmps" :: demo_top))
          (log_st (EvPrint "Initialization:") (start demo_top demo_files)))) ∧
  polym_final demo_params_no_scripts env_ok demo_loop_state =
    (Fail (Raise UnboundLocalError),
     set_fs_st (<["final.lmps" :: demo_top := File "pack"]> (fs demo_loop_state))
       (log_st (EvCopy ("temp.lmps" :: demo_top) ("final.lmps" :: demo_top))
          (log_st (EvPrint "Finalization:") demo_loop_state))) ∧
  exit_status (main demo_params_no_scripts env_ok (start demo_top demo_files)).1 = Some 1.
Proof.
  split; [|split].
  - apply (proj1 (proj1 (absent_script_is_fatal demo_params_no_scripts env_ok
                           (start demo_top demo_files)) eq_refl) "pack").
    + vm_compute. reflexivity.
    + vm_compute. discriminate.
  - apply (proj1 (proj2 (absent_script_is_fatal demo_params_no_scripts env_ok
                           demo_loop_state) eq_refl) "pack").
    + vm_compute. reflexivity.
    + vm_compute. discriminate.
  - vm_compute. reflexivity.
Defined.

(** * More of the controller *)

(** ** The loops end, and the process ends with status 0 or 1 *)

Section Ends.

Context (p : params) (env : oracle).















End Ends.



(** ** The cycle policy, for any parameters *)



(** ** The summary *)




(** ** Molecular dynamics *)





(** ** The cleaning loop *)






(** ** Initialization and finalization with their scripts *)



(** ** How the main loop is left *)



Section Left.

Context (p : params) (env : oracle).



End Left.



(** ** What [polym_step] returns *)

Section Step.

Context (p : params) (env : oracle).





End Step.




